(** * HifdhApp: the subtitle core of the player screen

    A shallow embedding of the text normalizer, the SRT cue parser and the
    cue locator of [src/app/_layout.js] ([normalizeTimeString], [timeToMs],
    [parseTimingLine], [parseSrt], [findCueIndex]), and the properties of
    them that the specification states.

    Conventions of the embedding:
    - a JavaScript string is the list of its UTF-16 code units ([list Z]);
      the regular expressions of the source carry no [u] flag, so they work
      on code units too;
    - [null]/[undefined] arguments are [None];
    - a JavaScript Number that holds an integer is a [Z].  A Number is an
      IEEE 754 double: it holds every integer up to [MAX_SAFE_INTEGER]
      (2^53 - 1) in absolute value, and sums and products of such
      integers that stay in that range are exact; above it a Number is
      rounded.  The [Z] of the model is the Number of the source as long
      as the values stay in that range, and every statement that gives
      the milliseconds of a timestamp from its digits carries this
      bound; statements on the sign of a time and on the order and the
      position of cues need none;
    - regular expression literals are values of [Regex.t], run by a
      backtracking matcher with the greedy, leftmost semantics of
      ECMAScript;
    - the [while] loop of the locator takes one unit of fuel per turn, and
      [>>] is written out on the 32-bit view of its operand. *)

From Stdlib Require Import String Ascii.
From Stdlib Require Import ZArith List Bool Lia ZifyBool Sorted.
Import Corelib.Init.Datatypes.
Import ListNotations.
Open Scope Z_scope.

Set Implicit Arguments.

(* ================================================================== *)
(** * Part I: definitions *)
(* ================================================================== *)

(** ** JavaScript strings and the String.prototype methods the source calls *)

Definition jsstring : Type := list Z.

(** [Number.MAX_SAFE_INTEGER]: up to it, in absolute value, a Number holds
    every integer, and [+] and [*] on integers are exact when their
    result stays below it. *)
Definition MAX_SAFE_INTEGER : Z := 2 ^ 53 - 1.

Module JsString.

Definition t : Type := jsstring.

(** An ASCII literal of the source, as code units. *)
Definition lit (s : string) : t :=
  map (fun a => Z.of_N (N_of_ascii a)) (list_ascii_of_string s).

Arguments lit s%_string.

Definition in_range (lo hi c : Z) : bool := (lo <=? c) && (c <=? hi).

(** ECMAScript WhiteSpace and LineTerminator code points: what [\s]
    matches and what [trim], [trimStart] and [trimEnd] strip. *)
Definition isWhiteSpace (c : Z) : bool :=
  in_range 9 13 c            (* TAB LF VT FF CR *)
  || (c =? 32)               (* SPACE *)
  || (c =? 160)              (* U+00A0 *)
  || (c =? 5760)             (* U+1680 *)
  || in_range 8192 8202 c    (* U+2000 .. U+200A *)
  || (c =? 8232) || (c =? 8233)  (* U+2028, U+2029 *)
  || (c =? 8239)             (* U+202F *)
  || (c =? 8287)             (* U+205F *)
  || (c =? 12288)            (* U+3000 *)
  || (c =? 65279).           (* U+FEFF *)

(** [\d] *)
Definition isDigit (c : Z) : bool := in_range 48 57 c.

Fixpoint trimStart (s : t) : t :=
  match s with
  | c :: s' => if isWhiteSpace c then trimStart s' else s
  | [] => []
  end.

Definition trimEnd (s : t) : t := rev (trimStart (rev s)).

Definition trim (s : t) : t := trimEnd (trimStart s).

Fixpoint startsWith (needle s : t) : bool :=
  match needle, s with
  | [], _ => true
  | _ :: _, [] => false
  | a :: needle', b :: s' => (a =? b) && startsWith needle' s'
  end.

(** [s.includes(needle)] *)
Fixpoint includes (needle s : t) : bool :=
  startsWith needle s
  || match s with
     | [] => false
     | _ :: s' => includes needle s'
     end.

(** [s.split(sep)] for a separator string that is not empty.  [skip]
    counts the code units of a separator still to be passed over and
    [cur] is the piece read so far, reversed. *)
Fixpoint split_from (sep : t) (skip : nat) (cur : t) (s : t) : list t :=
  match s with
  | [] => [rev cur]
  | c :: s' =>
      match skip with
      | S n => split_from sep n cur s'
      | O =>
          if startsWith sep s
          then rev cur :: split_from sep (pred (length sep)) [] s'
          else split_from sep O (c :: cur) s'
      end
  end.

Definition split (sep : t) (s : t) : list t := split_from sep O [] s.

(** [pieces.join(sep)] *)
Fixpoint join (sep : t) (pieces : list t) : t :=
  match pieces with
  | [] => []
  | [p] => p
  | p :: rest => p ++ sep ++ join sep rest
  end.

(** [s.padEnd(targetLength, fill)] *)
Definition padEnd (targetLength : nat) (fill : t) (s : t) : t :=
  let missing := (targetLength - length s)%nat in
  s ++ firstn missing (concat (repeat fill missing)).

(** [Number(s)] on a string of ASCII digits (the only strings the source
    converts are captures of [\d+], [\d{2}] and [\d{1,3}]): its decimal
    value; leading zeros do not make it octal.  This is the Number of the
    source when the value is at most [MAX_SAFE_INTEGER]; a longer run of
    digits is rounded by the source to the nearest double. *)
Definition NumberOfDigits (s : t) : Z :=
  fold_left (fun acc c => 10 * acc + (c - 48)) s 0.

Fixpoint uint_units (d : Decimal.uint) : t :=
  match d with
  | Decimal.Nil => []
  | Decimal.D0 d => 48 :: uint_units d
  | Decimal.D1 d => 49 :: uint_units d
  | Decimal.D2 d => 50 :: uint_units d
  | Decimal.D3 d => 51 :: uint_units d
  | Decimal.D4 d => 52 :: uint_units d
  | Decimal.D5 d => 53 :: uint_units d
  | Decimal.D6 d => 54 :: uint_units d
  | Decimal.D7 d => 55 :: uint_units d
  | Decimal.D8 d => 56 :: uint_units d
  | Decimal.D9 d => 57 :: uint_units d
  end.

(** [String(n)] for an integer [n]. *)
Definition StringOfInteger (n : Z) : t :=
  match Z.to_int n with
  | Decimal.Pos d => uint_units d
  | Decimal.Neg d => 45 :: uint_units d
  end.

(** [s.charCodeAt(0)]; the source calls it on a one-unit match only. *)
Definition charCodeAt0 (s : t) : Z := hd 0 s.

End JsString.

(** ** Regular expressions *)

Module Regex.

(** The constructs that occur in the literals of the source.  Every
    quantifier of the source is applied to a character class. *)
Inductive t : Type :=
| Class (p : Z -> bool)                           (* [...], \d, \s, a literal unit *)
| Seq (r1 r2 : t)                                 (* r1 r2 *)
| Alt (r1 r2 : t)                                 (* r1|r2 *)
| Quant (p : Z -> bool) (min : nat) (max : option nat)  (* c+, c{n}, c{n,m}, c{n,} greedy *)
| Group (r : t).                                  (* ( r ), capturing *)

Definition chr (c : Z) : t := Class (Z.eqb c).
Definition range (lo hi : Z) : t := Class (JsString.in_range lo hi).

(** A literal string of at least one unit. *)
Fixpoint str (c : Z) (cs : list Z) : t :=
  match cs with
  | [] => chr c
  | c' :: cs' => Seq (chr c) (str c' cs')
  end.

Definition may_take (max : option nat) : bool :=
  match max with
  | Some O => false
  | _ => true
  end.

(** Greedy quantifier: take one more unit when allowed, and fall back to
    stopping here when the rest of the pattern fails after that. *)
Fixpoint quant {R} (p : Z -> bool) (min : nat) (max : option nat)
         (s : jsstring) (k : jsstring -> option R) : option R :=
  let stop := match min with O => k s | S _ => None end in
  match s with
  | c :: s' =>
      if may_take max && p c then
        match quant p (pred min) (option_map pred max) s' k with
        | Some r => Some r
        | None => stop
        end
      else stop
  | [] => stop
  end.

(** The unit sequence consumed between input [s] and remainder [s']. *)
Definition consumed (s s' : jsstring) : jsstring :=
  firstn (length s - length s') s.

(** Backtracking matcher in continuation-passing style: [k] is the rest
    of the pattern, [caps] the captures closed so far. *)
Fixpoint run {R} (r : t) (s : jsstring) (caps : list jsstring)
         (k : jsstring -> list jsstring -> option R) : option R :=
  match r with
  | Class p =>
      match s with
      | c :: s' => if p c then k s' caps else None
      | [] => None
      end
  | Seq r1 r2 => run r1 s caps (fun s1 caps1 => run r2 s1 caps1 k)
  | Alt r1 r2 =>
      match run r1 s caps k with
      | Some x => Some x
      | None => run r2 s caps k
      end
  | Quant p min max => quant p min max s (fun s' => k s' caps)
  | Group r1 =>
      run r1 s caps (fun s' caps' => k s' (caps' ++ [consumed s s']))
  end.

(** A match: [m[0]], the captures [m[1]], [m[2]], ... and the input
    after the match. *)
Record result := { whole : jsstring; groups : list jsstring; rest : jsstring }.

(** A match that starts at the first unit of [s]: what a pattern that
    begins with [^] (without the [m] flag) can find. *)
Definition match_at (r : t) (s : jsstring) : option result :=
  run r s [] (fun s' caps =>
    Some {| whole := consumed s s'; groups := caps; rest := s' |}).

(** [s.match(r)] without the [g] flag: the leftmost match. *)
Fixpoint exec (r : t) (s : jsstring) : option result :=
  match match_at r s with
  | Some m => Some m
  | None =>
      match s with
      | [] => None
      | _ :: s' => exec r s'
      end
  end.

(** [r.test(s)] *)
Definition test (r : t) (s : jsstring) : bool :=
  match exec r s with Some _ => true | None => false end.

(** [s.replace(r, f)] with the [g] flag, the replacement computed from
    the matched text.  [skip] counts the units of the last match that are
    still to be passed over. *)
Fixpoint replace_from (r : t) (f : jsstring -> jsstring) (skip : nat)
         (s : jsstring) : jsstring :=
  match s with
  | [] =>
      match skip, match_at r [] with
      | O, Some m => f (whole m)
      | _, _ => []
      end
  | c :: s' =>
      match skip with
      | S n => replace_from r f n s'
      | O =>
          match match_at r s with
          | Some m =>
              match length (whole m) with
              | O => f (whole m) ++ c :: replace_from r f O s'
              | S n => f (whole m) ++ replace_from r f n s'
              end
          | None => c :: replace_from r f O s'
          end
      end
  end.

Definition replace_all (r : t) (f : jsstring -> jsstring) (s : jsstring)
  : jsstring := replace_from r f O s.

(** [s.replace(r, by)] where [r] begins with [^] and has no [g] flag. *)
Definition replace_at_start (r : t) (by_ : jsstring) (s : jsstring)
  : jsstring :=
  match match_at r s with
  | Some m => by_ ++ rest m
  | None => s
  end.

(** [s.split(r)] for a pattern without capturing groups.  A match that
    is empty does not split before the first unit of a piece. *)
Fixpoint split_from (r : t) (skip : nat) (cur : jsstring) (s : jsstring)
  : list jsstring :=
  match s with
  | [] => [rev cur]
  | c :: s' =>
      match skip with
      | S n => split_from r n cur s'
      | O =>
          match match_at r s with
          | Some m =>
              match length (whole m), cur with
              | O, [] => split_from r O [c] s'
              | O, _ :: _ => rev cur :: split_from r O [c] s'
              | S n, _ => rev cur :: split_from r n [] s'
              end
          | None => split_from r O (c :: cur) s'
          end
      end
  end.

Definition split (r : t) (s : jsstring) : list jsstring :=
  split_from r O [] s.

End Regex.

(** ** The text normalizer *)

Import JsString.
Arguments lit s%_string.

(** [[\u200E\u200F\u202A-\u202E\u2066-\u2069]] *)
Definition isBidiMark (c : Z) : bool :=
  (c =? 0x200E) || (c =? 0x200F) || in_range 0x202A 0x202E c
  || in_range 0x2066 0x2069 c.

(** [[\u200B\u200C\u200D\u2060\uFEFF]] *)
Definition isZeroWidth (c : Z) : bool :=
  (c =? 0x200B) || (c =? 0x200C) || (c =? 0x200D) || (c =? 0x2060)
  || (c =? 0xFEFF).

(** [[\u00A0\u1680\u180E\u2000-\u200A\u202F\u205F\u3000]] *)
Definition isWeirdSpace (c : Z) : bool :=
  (c =? 0x00A0) || (c =? 0x1680) || (c =? 0x180E) || in_range 0x2000 0x200A c
  || (c =? 0x202F) || (c =? 0x205F) || (c =? 0x3000).

Definition BIDI_MARKS_RE : Regex.t := Regex.Class isBidiMark.
Definition ZERO_WIDTH_RE : Regex.t := Regex.Class isZeroWidth.
Definition WEIRD_SPACES_RE : Regex.t := Regex.Class isWeirdSpace.

(** [/\s+/g] *)
Definition WHITESPACE_RUN_RE : Regex.t := Regex.Quant isWhiteSpace 1 None.

(** [s.replace(re, "...")] with a replacement text that holds no [$]. *)
Definition replace_with (re : Regex.t) (by_ : jsstring) (s : jsstring)
  : jsstring := Regex.replace_all re (fun _ => by_) s.

Definition normalizeTimeString (raw : option jsstring) : jsstring :=
  match raw with
  | None => []
  | Some raw =>
      let s := raw in
      (* Remove invisible marks *)
      let s := replace_with ZERO_WIDTH_RE [] (replace_with BIDI_MARKS_RE [] s) in
      (* Normalize weird spaces to regular spaces *)
      let s := replace_with WEIRD_SPACES_RE (lit " ") s in
      (* Normalize Arabic punctuation/separators to ASCII equivalents *)
      let s := replace_with (Regex.chr 0x060C) (lit ",") s in
      let s := replace_with (Regex.chr 0x066B) (lit ",") s in
      let s := replace_with (Regex.chr 0x066C) [] s in
      let s := replace_with (Regex.chr 0xFF0C) (lit ",") s in
      let s := replace_with (Regex.chr 0xFE10) (lit ",") s in
      let s := replace_with (Regex.chr 0xFE11) (lit ",") s in
      let s := replace_with (Regex.chr 0xFF1A) (lit ":") s in
      let s := replace_with (Regex.chr 0xFE13) (lit ":") s in
      let s := replace_with (Regex.chr 0xFE55) (lit ":") s in
      let s := replace_with (Regex.chr 0x2236) (lit ":") s in
      (* Arabic-Indic digits, then Eastern Arabic-Indic digits *)
      let s := Regex.replace_all (Regex.range 0x0660 0x0669)
                 (fun d => StringOfInteger (charCodeAt0 d - 0x0660)) s in
      let s := Regex.replace_all (Regex.range 0x06F0 0x06F9)
                 (fun d => StringOfInteger (charCodeAt0 d - 0x06F0)) s in
      (* Strip all whitespace *)
      trim (replace_with WHITESPACE_RUN_RE [] s)
  end.

(** ** Timestamps and timing lines *)

Definition digit : Z -> bool := isDigit.
Definition dot_or_comma (c : Z) : bool := (c =? 46) || (c =? 44).

(** [\d+:\d{2}:\d{2}[.,]\d{1,3}] with the four captures of [timeToMs]. *)
Definition TIME_RE : Regex.t :=
  Regex.Seq (Regex.Group (Regex.Quant digit 1 None))
 (Regex.Seq (Regex.chr 58)
 (Regex.Seq (Regex.Group (Regex.Quant digit 2 (Some 2%nat)))
 (Regex.Seq (Regex.chr 58)
 (Regex.Seq (Regex.Group (Regex.Quant digit 2 (Some 2%nat)))
 (Regex.Seq (Regex.Class dot_or_comma)
            (Regex.Group (Regex.Quant digit 1 (Some 3%nat)))))))).

(** [/^(\d+):(\d{2}):(\d{2})[.,](\d{1,3})/]: the leading [^] is the
    use of [Regex.match_at].  The sum is that of the source when it is at
    most [MAX_SAFE_INTEGER] (hours below 2501999792, some 285000 years):
    then every Number on the way is a safe integer too
    ([timeToMs_steps_safe]) and no step rounds. *)
Definition timeToMs (raw : option jsstring) : Z :=
  let t := normalizeTimeString raw in
  match Regex.match_at TIME_RE t with
  | Some {| Regex.groups := [m1; m2; m3; m4] |} =>
      let hh := NumberOfDigits m1 in
      let mm := NumberOfDigits m2 in
      let ss := NumberOfDigits m3 in
      let ms := NumberOfDigits (padEnd 3 (lit "0") m4) in
      ((hh * 60 + mm) * 60 + ss) * 1000 + ms
  | _ => 0
  end.

(** The same pattern without inner captures, as it stands inside the
    two captures of the timing line pattern. *)
Definition STAMP_RE : Regex.t :=
  Regex.Seq (Regex.Quant digit 1 None)
 (Regex.Seq (Regex.chr 58)
 (Regex.Seq (Regex.Quant digit 2 (Some 2%nat))
 (Regex.Seq (Regex.chr 58)
 (Regex.Seq (Regex.Quant digit 2 (Some 2%nat))
 (Regex.Seq (Regex.Class dot_or_comma)
            (Regex.Quant digit 1 (Some 3%nat))))))).

(** [-->|\u2014>|\u2013>] *)
Definition ARROW_RE : Regex.t :=
  Regex.Alt (Regex.str 45 [45; 62])
 (Regex.Alt (Regex.str 0x2014 [62]) (Regex.str 0x2013 [62])).

(** [/(\d+:\d{2}:\d{2}[.,]\d{1,3})(?:-->|\u2014>|\u2013>)(\d+:\d{2}:\d{2}[.,]\d{1,3})/] *)
Definition TIMING_LINE_RE : Regex.t :=
  Regex.Seq (Regex.Group STAMP_RE) (Regex.Seq ARROW_RE (Regex.Group STAMP_RE)).

Module Timing.
Record t := {
  startMs : Z;
  endMs : Z;
  startRaw : jsstring;
  endRaw : jsstring;
  normalizedLine : jsstring
}.
End Timing.

(** [rawLine] is [None] for [undefined]; [!rawLine] also holds of the
    empty string. *)
Definition parseTimingLine (rawLine : option jsstring) : option Timing.t :=
  match rawLine with
  | None | Some [] => None
  | Some _ =>
      let line := normalizeTimeString rawLine in
      match Regex.exec TIMING_LINE_RE line with
      | Some {| Regex.groups := [startRaw; endRaw] |} =>
          Some {| Timing.startMs := timeToMs (Some startRaw);
                  Timing.endMs := timeToMs (Some endRaw);
                  Timing.startRaw := startRaw;
                  Timing.endRaw := endRaw;
                  Timing.normalizedLine := line |}
      | _ => None
      end
  end.

(** ** Arrays and the Array.prototype methods the source calls *)

Module JsArray.

Section Methods.
Variable A : Type.

(** [a[i]]: [None] is [undefined], the value of an index that is out
    of range. *)
Definition get (a : list A) (i : Z) : option A :=
  if i <? 0 then None else nth_error a (Z.to_nat i).

Fixpoint findIndex_from (p : A -> bool) (i : Z) (a : list A) : Z :=
  match a with
  | [] => -1
  | x :: a' => if p x then i else findIndex_from p (i + 1) a'
  end.

(** [a.findIndex(p)] *)
Definition findIndex (p : A -> bool) (a : list A) : Z :=
  findIndex_from p 0 a.

(** [a.slice(start)] *)
Definition slice (start : Z) (a : list A) : list A :=
  if start <? 0
  then skipn (length a - Z.to_nat (- start)) a
  else skipn (Z.to_nat start) a.

Fixpoint mapi_from (B : Type) (f : A -> Z -> B) (i : Z) (a : list A)
  : list B :=
  match a with
  | [] => []
  | x :: a' => f x i :: mapi_from f (i + 1) a'
  end.

(** [a.map((x, i) => f(x, i))] *)
Definition mapi (B : Type) (f : A -> Z -> B) (a : list A) : list B :=
  mapi_from f 0 a.

(** [a.sort(cmp)].  ECMAScript requires the sort to be stable, and for
    a comparator that is a difference of integer keys the stable
    sorted arrangement is unique; insertion sort computes it.  [x] is
    placed behind the elements it compares greater than, and before
    the first element it does not. *)
Fixpoint insert (cmp : A -> A -> Z) (x : A) (a : list A) : list A :=
  match a with
  | [] => [x]
  | y :: a' => if cmp x y >? 0 then y :: insert cmp x a' else x :: a
  end.

Fixpoint sort (cmp : A -> A -> Z) (a : list A) : list A :=
  match a with
  | [] => []
  | x :: a' => insert cmp x (sort cmp a')
  end.
End Methods.

End JsArray.

(** ** The cue parser *)

Record Cue := {
  index : Z;
  startMs : Z;
  endMs : Z;
  text : jsstring
}.

(** [{ ...c, index: i }] *)
Definition with_index (c : Cue) (i : Z) : Cue :=
  {| index := i; startMs := startMs c; endMs := endMs c; text := text c |}.

(** ["\n"] *)
Definition LF : jsstring := [10].

(** [/\n{2,}/] *)
Definition BLANK_LINES_RE : Regex.t := Regex.Quant (Z.eqb 10) 2 None.

(** The preprocessing of [parseSrt]: the document without its byte order
    mark and with LF line ends, cut into trimmed blocks that are not
    empty. *)
Definition blocksOf (srtText : jsstring) : list jsstring :=
  let normalized :=
    replace_with (Regex.chr 13) LF
      (replace_with (Regex.str 13 [10]) LF
         (Regex.replace_at_start (Regex.chr 0xFEFF) [] srtText)) in
  filter (fun b => negb (length b =? 0)%nat)
         (map trim (Regex.split BLANK_LINES_RE normalized)).

(** [block.split("\n").map((l) => l.trimEnd())] *)
Definition linesOf (block : jsstring) : list jsstring :=
  map trimEnd (split LF block).

(** The two [findIndex] calls that look for the timing line. *)
Definition timeLineIdxOf (lines : list jsstring) : Z :=
  let timeLineIdx := JsArray.findIndex (includes (lit "-->")) lines in
  if timeLineIdx =? -1
  then JsArray.findIndex (Regex.test ARROW_RE) lines
  else timeLineIdx.

(** The text of the cue: the lines after the timing line that are not
    empty, joined and trimmed. *)
Definition cueTextOf (lines : list jsstring) (timeLineIdx : Z) : jsstring :=
  let bodyLines :=
    filter (fun l => (0 <? length l)%nat) (JsArray.slice (timeLineIdx + 1) lines) in
  trim (join LF bodyLines).

(** One turn of the [for (const block of blocks)] loop on the state
    [(cues, cueIndex)]; a [continue] leaves the state as it is. *)
Definition parseBlock (st : list Cue * Z) (block : jsstring) : list Cue * Z :=
  let '(cues, cueIndex) := st in
  let lines := linesOf block in
  let timeLineIdx := timeLineIdxOf lines in
  if timeLineIdx =? -1 then st
  else
    let timeLineRaw := JsArray.get lines timeLineIdx in
    match parseTimingLine timeLineRaw with
    | None => st
    | Some timing =>
        (cues ++ [ {| index := cueIndex;
                      startMs := Timing.startMs timing;
                      endMs := Timing.endMs timing;
                      text := cueTextOf lines timeLineIdx |} ],
         cueIndex + 1)
    end.

(** The cues pushed by the loop, in block order. *)
Definition collectCues (blocks : list jsstring) : list Cue :=
  fst (fold_left parseBlock blocks ([], 0)).

(** [(a, b) => a.startMs - b.startMs] *)
Definition byStart (a b : Cue) : Z := startMs a - startMs b.

Definition parseSrt (srtText : option jsstring) : list Cue :=
  match srtText with
  | None | Some [] => []
  | Some srtText =>
      let cues := collectCues (blocksOf srtText) in
      (* Sort by start time; then re-index *)
      JsArray.mapi with_index (JsArray.sort byStart cues)
  end.

(** ** The cue locator *)

(** The 32-bit view of a Number that the operators [>>], [|], ... take. *)
Definition ToInt32 (n : Z) : Z :=
  let m := n mod 2 ^ 32 in
  if m <? 2 ^ 31 then m else m - 2 ^ 32.

(** [a >> b] *)
Definition sar (a b : Z) : Z := Z.shiftr (ToInt32 a) (b mod 32).

(** How a call ends: with a value, with the TypeError of a property read
    on [undefined], or with the fuel of the model used up. *)
Inductive outcome : Type :=
| Returns (i : Z)
| ThrowsTypeError
| OutOfFuel.

(** The [while (lo <= hi)] loop; each turn uses one unit of fuel. *)
Fixpoint findCueIndex_loop (fuel : nat) (cues : list Cue)
         (positionMs lo hi best : Z) : outcome :=
  match fuel with
  | O => OutOfFuel
  | S fuel' =>
      if lo <=? hi then
        let mid := sar (lo + hi) 1 in
        match JsArray.get cues mid with
        | None => ThrowsTypeError
        | Some c =>
            if positionMs <? startMs c then
              findCueIndex_loop fuel' cues positionMs lo (mid - 1) best
            else if positionMs >? endMs c then
              findCueIndex_loop fuel' cues positionMs (mid + 1) hi mid
            else Returns mid
        end
      else
        Returns (Z.max 0 (Z.min best (Z.of_nat (length cues) - 1)))
  end.

Definition findCueIndex (fuel : nat) (cues : option (list Cue))
           (positionMs : Z) : outcome :=
  match cues with
  | None | Some [] => Returns 0
  | Some cues =>
      findCueIndex_loop fuel cues positionMs 0 (Z.of_nat (length cues) - 1) 0
  end.

(** ** The notions of the specification *)

(** [positionMs] lies in [[startMs, endMs]], both ends included. *)
Definition contains (c : Cue) (positionMs : Z) : Prop :=
  startMs c <= positionMs <= endMs c.

(** Every cue starts no later than the cues behind it. *)
Definition sorted_by_start (cues : list Cue) : Prop :=
  StronglySorted (fun a b => startMs a <= startMs b) cues.

(** Every cue has ended before any cue behind it starts. *)
Definition non_overlapping (cues : list Cue) : Prop :=
  StronglySorted (fun a b => endMs a < startMs b) cues.

(** The invariant that the data model expects of a cue. *)
Definition is_interval (c : Cue) : Prop := startMs c <= endMs c.

(** The two intervals share no position. *)
Definition disjoint (a b : Cue) : Prop :=
  forall t, ~ (contains a t /\ contains b t).

(** A unit that [normalizeTimeString] removes or rewrites. *)
Definition is_rewritten (c : Z) : bool :=
  isBidiMark c || isZeroWidth c || isWeirdSpace c
  || (c =? 0x060C) || (c =? 0x066B) || (c =? 0x066C) || (c =? 0xFF0C)
  || (c =? 0xFE10) || (c =? 0xFE11) || (c =? 0xFF1A) || (c =? 0xFE13)
  || (c =? 0xFE55) || (c =? 0x2236)
  || in_range 0x0660 0x0669 c || in_range 0x06F0 0x06F9 c || isWhiteSpace c.

(** The alphabet of a timestamp with blanks: ASCII digits, colon, comma,
    period and whitespace. *)
Definition timing_alphabet (c : Z) : bool :=
  isDigit c || (c =? 58) || (c =? 44) || (c =? 46) || isWhiteSpace c.

(** The value of a string of ASCII digits, by the weight of each place. *)
Fixpoint decimal (ds : jsstring) : Z :=
  match ds with
  | [] => 0
  | d :: ds' => (d - 48) * 10 ^ Z.of_nat (length ds') + decimal ds'
  end.

Definition all_digits (s : jsstring) : Prop :=
  Forall (fun c => isDigit c = true) s.

(** [t] begins with hours of one or more digits, a colon, two digits of
    minutes, a colon, two digits of seconds, a period or comma and a
    fraction of one to three digits; the fraction is all the digits that
    stand there, up to three. *)
Definition begins_with_timestamp
           (t hh mm ss : jsstring) (sep : Z) (frac tail : jsstring) : Prop :=
  t = hh ++ 58 :: mm ++ 58 :: ss ++ sep :: frac ++ tail
  /\ (1 <= length hh)%nat /\ all_digits hh
  /\ length mm = 2%nat /\ all_digits mm
  /\ length ss = 2%nat /\ all_digits ss
  /\ (sep = 46 \/ sep = 44)
  /\ (1 <= length frac <= 3)%nat /\ all_digits frac
  /\ (length frac = 3%nat
      \/ match tail with [] => True | c :: _ => isDigit c = false end).

(** What a cue carries besides its index. *)
Definition cue_body (c : Cue) : Z * Z * jsstring :=
  (startMs c, endMs c, text c).

(** The cues of a document in the order of their blocks, as they stand
    before the sort of [parseSrt]. *)
Definition cuesInBlockOrder (srtText : option jsstring) : list Cue :=
  match srtText with
  | None | Some [] => []
  | Some srtText => collectCues (blocksOf srtText)
  end.

(** The cues that start at [k], in the order of the list. *)
Definition starting_at (k : Z) (cues : list Cue) : list (Z * Z * jsstring) :=
  map cue_body (filter (fun c => startMs c =? k) cues).

(** No line of the block holds an arrow variant. *)
Definition has_no_timing_line (block : jsstring) : Prop :=
  Forall (fun l => Regex.test ARROW_RE l = false) (linesOf block).

(** The block has a timing line, and the normalized line does not match
    the timestamp-arrow-timestamp pattern. *)
Definition timing_line_fails (block : jsstring) : Prop :=
  exists line,
    JsArray.get (linesOf block) (timeLineIdxOf (linesOf block)) = Some line
    /\ Regex.exec TIMING_LINE_RE (normalizeTimeString (Some line)) = None.

(** The lines of a block behind its timing line that are not empty: the
    caption lines. *)
Definition captionLinesOf (block : jsstring) : list jsstring :=
  filter (fun l => (0 <? length l)%nat)
         (JsArray.slice (timeLineIdxOf (linesOf block) + 1) (linesOf block)).

(** ** Notions of the proofs *)

(** The largest array length for which [lo + hi] of the locator stays in
    the range of [>>]. *)
Definition MAX_CUES : Z := 2 ^ 30.

(** Replacing the units of a class, one by one. *)
Definition subst_units (p : Z -> bool) (r : Z -> jsstring) (s : jsstring)
  : jsstring := flat_map (fun c => if p c then r c else [c]) s.

(** The length of the longest prefix of [s] made of units of [p]. *)
Fixpoint run_length (p : Z -> bool) (s : jsstring) : nat :=
  match s with
  | c :: s' => if p c then S (run_length p s') else O
  | [] => O
  end.

(** A quantifier is allowed [n] units. *)
Definition fits (max : option nat) (n : nat) : Prop :=
  match max with
  | None => True
  | Some m => (n <= m)%nat
  end.

(** After [n] units the quantifier can take no more of [rest]. *)
Definition stops (p : Z -> bool) (max : option nat) (n : nat)
           (rest : jsstring) : Prop :=
  max = Some n \/ match rest with
                  | [] => True
                  | c :: _ => p c = false
                  end.

(** A line with a last unit that is not whitespace. *)
Definition ends_visibly (l : jsstring) : Prop :=
  exists init c, l = init ++ [c] /\ isWhiteSpace c = false.

(** ** Sample data *)

(** A block whose two caption lines are indented. *)
Definition indented_block : jsstring :=
  lit "1" ++ LF ++ lit "00:00:00,000 --> 00:00:01,000" ++ LF
  ++ lit "  Hello" ++ LF ++ lit "  World".

Definition mkCue (i s e : Z) : Cue :=
  {| index := i; startMs := s; endMs := e; text := [] |}.

(** The three cues of the specification's locator example. *)
Definition three_cues : list Cue :=
  [mkCue 0 0 999; mkCue 1 1000 1999; mkCue 2 2000 2999].

(** Three cues with a gap between the first and the second. *)
Definition gapped_cues : list Cue :=
  [mkCue 0 0 999; mkCue 1 1500 1999; mkCue 2 2000 2999].

(** Three cues of which the second has its end before its start. *)
Definition degenerate_cues : list Cue :=
  [mkCue 0 0 100; mkCue 1 50 40; mkCue 2 200 300].

(** A document whose second block has a number and a text but no
    timing line. *)
Definition block_hello : jsstring :=
  lit "1" ++ LF ++ lit "00:00:00,000 --> 00:00:02,000" ++ LF ++ lit "Hello".
Definition block_untimed : jsstring :=
  lit "2" ++ LF ++ lit "no timing here".
Definition block_world : jsstring :=
  lit "3" ++ LF ++ lit "00:00:02,000 --> 00:00:04,000" ++ LF ++ lit "World".
Definition document_with_untimed_block : jsstring :=
  block_hello ++ LF ++ LF ++ block_untimed ++ LF ++ LF ++ block_world.

(** A block that ends with its timing line. *)
Definition block_without_text : jsstring :=
  lit "1" ++ LF ++ lit "00:00:01,000 --> 00:00:02,000".
Definition timing_without_text : Timing.t :=
  {| Timing.startMs := 1000;
     Timing.endMs := 2000;
     Timing.startRaw := lit "00:00:01,000";
     Timing.endRaw := lit "00:00:02,000";
     Timing.normalizedLine := lit "00:00:01,000-->00:00:02,000" |}.
Definition timing_indented : Timing.t :=
  {| Timing.startMs := 0;
     Timing.endMs := 1000;
     Timing.startRaw := lit "00:00:00,000";
     Timing.endRaw := lit "00:00:01,000";
     Timing.normalizedLine := lit "00:00:00,000-->00:00:01,000" |}.

(** ** Further notions *)

(** The text of a timestamp: hours, a colon, minutes, a colon, seconds, a
    separator and a fraction. *)
Definition stamp (hh mm ss : jsstring) (sep : Z) (frac : jsstring)
  : jsstring := hh ++ 58 :: mm ++ 58 :: ss ++ sep :: frac.

(** The fields are those of the timestamp pattern: one or more digits of
    hours, two of minutes, two of seconds, a period or a comma, and one to
    three digits of fraction. *)
Definition stamp_fields (hh mm ss : jsstring) (sep : Z) (frac : jsstring)
  : Prop :=
  (1 <= length hh)%nat /\ all_digits hh
  /\ length mm = 2%nat /\ all_digits mm
  /\ length ss = 2%nat /\ all_digits ss
  /\ (sep = 46 \/ sep = 44)
  /\ (1 <= length frac <= 3)%nat /\ all_digits frac.

(** The milliseconds that the fields stand for. *)
Definition stamp_ms (hh mm ss frac : jsstring) : Z :=
  ((decimal hh * 60 + decimal mm) * 60 + decimal ss) * 1000
  + decimal frac * 10 ^ Z.of_nat (3 - length frac).

(** The three arrows of the timing line pattern. *)
Definition is_arrow (a : jsstring) : Prop :=
  a = lit "-->" \/ a = [0x2014; 62] \/ a = [0x2013; 62].

(** What a block gives to the result: the times and the text of one cue
    when its timing line parses, and nothing otherwise. *)
Definition bodiesOfBlock (block : jsstring) : list (Z * Z * jsstring) :=
  match parseTimingLine
          (JsArray.get (linesOf block) (timeLineIdxOf (linesOf block))) with
  | Some timing =>
      [(Timing.startMs timing, Timing.endMs timing,
        trim (join LF (captionLinesOf block)))]
  | None => []
  end.

(** The text [s], written with [eol] for each line feed. *)
Definition withLineEnds (eol : jsstring) (s : jsstring) : jsstring :=
  flat_map (fun c => if c =? 10 then eol else [c]) s.

(** A unit that [normalizeTimeString] takes out of the text: a
    bidirectional mark, a zero-width unit, a space variant, the Arabic
    thousands separator, or whitespace. *)
Definition is_removed (c : Z) : bool :=
  isBidiMark c || isZeroWidth c || isWeirdSpace c || (c =? 0x066C)
  || isWhiteSpace c.

(** What [parseTimingLine] makes of a normalized line. *)
Definition timingOfNormalized (line : jsstring) : option Timing.t :=
  match Regex.exec TIMING_LINE_RE line with
  | Some {| Regex.groups := [startRaw; endRaw] |} =>
      Some {| Timing.startMs := timeToMs (Some startRaw);
              Timing.endMs := timeToMs (Some endRaw);
              Timing.startRaw := startRaw;
              Timing.endRaw := endRaw;
              Timing.normalizedLine := line |}
  | _ => None
  end.

(** ** The player screen *)

(** The calls that the screen makes on its collaborators: the state
    setter, the scroll view and the audio player. *)
Inductive command : Type :=
| SetActiveIndex (idx : Z)     (* setActiveIndex(idx) *)
| ScrollTo (y : Z)             (* scrollRef.current.scrollTo({ y, animated: true }) *)
| SeekTo (ms : Z)              (* player.seekTo(ms / 1000) *)
| Play.                        (* player.play() *)

(** How a run of the effect ends: with the calls it made, in order, and
    the value left in [lastRepeatRef.current]; or with [findCueIndex] not
    returning. *)
Inductive effect_end : Type :=
| Ran (commands : list command) (lastRepeat : Z)
| Stopped (o : outcome).

(** The effect of [PlayerInner] that follows the playback position.
    [mounted] tells whether [scrollRef.current] is set; [activeIndex] and
    [repeatLine] are the state of the render, [lastRepeat] is
    [lastRepeatRef.current] before the run. *)
Definition syncPosition (fuel : nat) (mounted : bool) (cues : list Cue)
           (positionMs : Z) (repeatLine : bool) (activeIndex lastRepeat : Z)
  : effect_end :=
  match cues with
  | [] => Ran [] lastRepeat                       (* if (!cues.length) return *)
  | _ :: _ =>
      match findCueIndex fuel (Some cues) positionMs with
      | Returns idx =>
          let moved :=
            if idx =? activeIndex then []
            else SetActiveIndex idx
                 :: (if mounted then [ScrollTo (Z.max 0 (idx * 72 - 120))]
                     else []) in
          if repeatLine then
            match JsArray.get cues idx with
            | None => Ran moved lastRepeat        (* if (!c) return *)
            | Some c =>
                if (positionMs >=? endMs c - 40)
                   && negb (lastRepeat =? index c)
                then Ran (moved ++ [SeekTo (startMs c); Play]) (index c)
                else Ran moved lastRepeat
            end
          else Ran moved (-1)
      | o => Stopped o
      end
  end.

(** [seekToCue(i)], the handler of a press on a cue of the list. *)
Definition seekToCue (cues : list Cue) (i : Z) : list command :=
  match JsArray.get cues i with
  | None => []                                    (* if (!c) return *)
  | Some c => [SeekTo (startMs c); Play]
  end.

(** The active index after the state setter calls of a run. *)
Fixpoint activeAfter (commands : list command) (activeIndex : Z) : Z :=
  match commands with
  | [] => activeIndex
  | SetActiveIndex idx :: rest => activeAfter rest idx
  | _ :: rest => activeAfter rest activeIndex
  end.

(** ** More sample data *)

(** A timing line in Arabic-Indic digits, with fullwidth colons, the
    Arabic decimal separator, a right-to-left mark and the dash arrow:
    00:01:02,5 to 00:01:04.250. *)
Definition arabic_timing_line : jsstring :=
  [0x200F; 0x0660; 0x0660; 0xFF1A; 0x0660; 0x0661; 0xFF1A; 0x0660; 0x0662;
   0x066B; 0x0665]
  ++ lit " " ++ [0x2014; 62] ++ lit " 00:01:04.250".

(** The cue of [indented_block]. *)
Definition indented_cue : Cue :=
  {| index := 0; startMs := 0; endMs := 1000;
     text := lit "Hello" ++ LF ++ lit "  World" |}.

(** The cue of [block_without_text]. *)
Definition cue_without_text : Cue := mkCue 0 1000 2000.

(* ================================================================== *)
(** * Part II: properties *)
(* ================================================================== *)

(** ** The matcher on the patterns of the source *)

Lemma consumed_app (h r : jsstring) : Regex.consumed (h ++ r) r = h.
Proof.
  unfold Regex.consumed. rewrite length_app.
  replace (length h + length r - length r)%nat with (length h + 0)%nat by lia.
  rewrite firstn_app_2. simpl. apply app_nil_r.
Qed.

Lemma consumed_cons (c : Z) (r : jsstring) : Regex.consumed (c :: r) r = [c].
Proof. apply (consumed_app [c] r). Qed.

Lemma match_at_Class (p : Z -> bool) (s : jsstring) :
  Regex.match_at (Regex.Class p) s =
    match s with
    | c :: s' =>
        if p c
        then Some {| Regex.whole := [c]; Regex.groups := []; Regex.rest := s' |}
        else None
    | [] => None
    end.
Proof.
  destruct s as [|c s']; [reflexivity|].
  unfold Regex.match_at. simpl Regex.run.
  destruct (p c); [|reflexivity]. now rewrite consumed_cons.
Qed.

Lemma replace_all_Class (p : Z -> bool) (f : jsstring -> jsstring)
      (s : jsstring) :
  Regex.replace_all (Regex.Class p) f s = subst_units p (fun c => f [c]) s.
Proof.
  unfold Regex.replace_all, subst_units.
  induction s as [|c s IH]; [reflexivity|].
  cbn [Regex.replace_from flat_map]. rewrite match_at_Class.
  destruct (p c); simpl; now rewrite IH.
Qed.

Lemma run_length_le (p : Z -> bool) (s : jsstring) :
  (run_length p s <= length s)%nat.
Proof.
  induction s as [|c s IH]; simpl; [lia|]. destruct (p c); simpl; lia.
Qed.

(** An unbounded quantifier in front of a continuation that cannot fail
    takes the longest run. *)
Lemma quant_unbounded_total (R : Type) (p : Z -> bool) (g : jsstring -> R)
      (s : jsstring) :
  forall min,
    Regex.quant p min None s (fun s' => Some (g s')) =
      if (min <=? run_length p s)%nat
      then Some (g (skipn (run_length p s) s))
      else None.
Proof.
  induction s as [|c s IH]; intros min.
  - simpl. destruct min; reflexivity.
  - cbn [Regex.quant run_length]. simpl Regex.may_take. simpl andb.
    destruct (p c).
    + rewrite IH. simpl option_map.
      destruct min as [|min]; simpl.
      * reflexivity.
      * destruct (min <=? run_length p s)%nat; reflexivity.
    + destruct min; reflexivity.
Qed.

Lemma consumed_skipn (n : nat) (s : jsstring) :
  (n <= length s)%nat -> Regex.consumed s (skipn n s) = firstn n s.
Proof.
  intros H. unfold Regex.consumed. rewrite length_skipn.
  f_equal. lia.
Qed.

Lemma match_at_run (p : Z -> bool) (s : jsstring) :
  Regex.match_at (Regex.Quant p 1 None) s =
    if (1 <=? run_length p s)%nat
    then Some {| Regex.whole := firstn (run_length p s) s;
                 Regex.groups := [];
                 Regex.rest := skipn (run_length p s) s |}
    else None.
Proof.
  unfold Regex.match_at. cbn [Regex.run].
  rewrite (quant_unbounded_total p
             (fun s' => {| Regex.whole := Regex.consumed s s';
                           Regex.groups := [];
                           Regex.rest := s' |})).
  destruct (1 <=? run_length p s)%nat; [|reflexivity].
  now rewrite consumed_skipn by apply run_length_le.
Qed.

(** Deleting the runs of a class deletes its units. *)
Lemma replace_from_runs (p : Z -> bool) (s : jsstring) :
  forall skip, (skip <= run_length p s)%nat ->
    Regex.replace_from (Regex.Quant p 1 None) (fun _ => []) skip s
      = filter (fun c => negb (p c)) s.
Proof.
  induction s as [|c s IH]; intros skip Hskip.
  - simpl in Hskip. assert (skip = O) by lia. subst. reflexivity.
  - cbn [Regex.replace_from]. destruct skip as [|skip].
    + rewrite match_at_run. cbn [run_length filter].
      destruct (p c) eqn:Hp; simpl negb; cbn [Nat.leb].
      * cbn [Regex.whole]. rewrite firstn_cons. cbn [length app].
        rewrite length_firstn, Nat.min_l by apply run_length_le.
        apply IH. lia.
      * f_equal. apply IH. lia.
    + simpl in Hskip. destruct (p c) eqn:Hp; [|lia].
      simpl. rewrite Hp. simpl. apply IH. lia.
Qed.

Lemma replace_all_runs (p : Z -> bool) (s : jsstring) :
  Regex.replace_all (Regex.Quant p 1 None) (fun _ => []) s
    = filter (fun c => negb (p c)) s.
Proof. apply replace_from_runs. lia. Qed.

(** A greedy quantifier in front of the longest run it may take hands
    the rest to the continuation, and succeeds when that does. *)
Lemma quant_takes_run (R : Type) (p : Z -> bool) (rest : jsstring)
      (k : jsstring -> option R) (x : R) :
  k rest = Some x ->
  forall (h : jsstring) (min : nat) (max : option nat),
    Forall (fun c => p c = true) h ->
    (min <= length h)%nat -> fits max (length h) ->
    stops p max (length h) rest ->
    Regex.quant p min max (h ++ rest) k = Some x.
Proof.
  intros Hk. induction h as [|a h IH]; intros min max Hall Hmin Hfit Hstop.
  - simpl in *. assert (min = O) by lia. subst min.
    destruct rest as [|c r]; simpl; [assumption|].
    destruct Hstop as [-> | Hc]; simpl.
    + assumption.
    + rewrite Hc, andb_false_r. assumption.
  - inversion Hall as [|? ? Ha Hh]; subst.
    cbn [app Regex.quant]. rewrite Ha, andb_true_r.
    assert (Hmay : Regex.may_take max = true).
    { destruct max as [[|m]|]; simpl in *; [lia | reflexivity | reflexivity]. }
    rewrite Hmay.
    rewrite (IH (pred min) (option_map pred max)); [reflexivity|assumption| | |].
    + simpl in Hmin. lia.
    + destruct max as [m|]; simpl in *; [lia | exact I].
    + destruct Hstop as [-> | Hc]; [left; reflexivity | right; assumption].
Qed.

(** ** The text normalizer *)

Lemma trimStart_clean (s : jsstring) :
  Forall (fun c => isWhiteSpace c = false) s -> trimStart s = s.
Proof.
  destruct 1 as [|c s Hc _]; [reflexivity|]. simpl. now rewrite Hc.
Qed.

Lemma trim_clean (s : jsstring) :
  Forall (fun c => isWhiteSpace c = false) s -> trim s = s.
Proof.
  intros H. unfold trim, trimEnd.
  rewrite (trimStart_clean H).
  rewrite trimStart_clean by (apply Forall_rev; assumption).
  apply rev_involutive.
Qed.

Lemma subst_units_Forall (P Q : Z -> Prop) (p : Z -> bool)
      (r : Z -> jsstring) (s : jsstring) :
  Forall P s ->
  (forall c, P c -> p c = true -> Forall Q (r c)) ->
  (forall c, P c -> p c = false -> Q c) ->
  Forall Q (subst_units p r s).
Proof.
  intros Hs Hyes Hno. unfold subst_units.
  induction Hs as [|c s Hc _ IH]; simpl; [constructor|].
  apply Forall_app. split; [|assumption].
  destruct (p c) eqn:Hp; [now apply Hyes|].
  constructor; [now apply Hno | constructor].
Qed.

Lemma subst_units_id (p : Z -> bool) (r : Z -> jsstring) (s : jsstring) :
  Forall (fun c => p c = false) s -> subst_units p r s = s.
Proof.
  unfold subst_units. induction 1 as [|c s Hc _ IH]; simpl; [reflexivity|].
  now rewrite Hc, IH.
Qed.

Lemma filter_id (p : Z -> bool) (s : jsstring) :
  Forall (fun c => p c = false) s -> filter (fun c => negb (p c)) s = s.
Proof.
  induction 1 as [|c s Hc _ IH]; simpl; [reflexivity|].
  now rewrite Hc, IH.
Qed.

Lemma filter_Forall (P : Z -> Prop) (p : Z -> bool) (s : jsstring) :
  Forall P s ->
  Forall (fun c => P c /\ p c = false) (filter (fun c => negb (p c)) s).
Proof.
  induction 1 as [|c s Hc _ IH]; simpl; [constructor|].
  destruct (p c) eqn:Hp; simpl; [assumption|].
  constructor; [split; assumption | assumption].
Qed.

(** The calls of [normalizeTimeString], as replacements of units. *)
Lemma normalizeTimeString_units (raw : jsstring) :
  normalizeTimeString (Some raw) =
    trim (filter (fun c => negb (isWhiteSpace c))
      (subst_units (in_range 0x06F0 0x06F9) (fun c => StringOfInteger (c - 0x06F0))
      (subst_units (in_range 0x0660 0x0669) (fun c => StringOfInteger (c - 0x0660))
      (subst_units (Z.eqb 0x2236) (fun _ => [58])
      (subst_units (Z.eqb 0xFE55) (fun _ => [58])
      (subst_units (Z.eqb 0xFE13) (fun _ => [58])
      (subst_units (Z.eqb 0xFF1A) (fun _ => [58])
      (subst_units (Z.eqb 0xFE11) (fun _ => [44])
      (subst_units (Z.eqb 0xFE10) (fun _ => [44])
      (subst_units (Z.eqb 0xFF0C) (fun _ => [44])
      (subst_units (Z.eqb 0x066C) (fun _ => [])
      (subst_units (Z.eqb 0x066B) (fun _ => [44])
      (subst_units (Z.eqb 0x060C) (fun _ => [44])
      (subst_units isWeirdSpace (fun _ => [32])
      (subst_units isZeroWidth (fun _ => [])
      (subst_units isBidiMark (fun _ => []) raw)))))))))))))))).
Proof.
  unfold normalizeTimeString, replace_with, BIDI_MARKS_RE, ZERO_WIDTH_RE,
    WEIRD_SPACES_RE, WHITESPACE_RUN_RE, Regex.chr, Regex.range.
  rewrite !replace_all_Class, replace_all_runs. reflexivity.
Qed.

Ltac unclass :=
  unfold is_rewritten, timing_alphabet, isBidiMark, isZeroWidth, isWeirdSpace,
    isWhiteSpace, isDigit, in_range in *.

Lemma subst_units_avoid (acc p : Z -> bool) (r : Z -> jsstring)
      (s : jsstring) :
  Forall (fun c => acc c = false) s ->
  (forall c, p c = true -> Forall (fun d => acc d || p d = false) (r c)) ->
  Forall (fun c => acc c || p c = false) (subst_units p r s).
Proof.
  intros Hs Hr.
  apply subst_units_Forall with (P := fun c => acc c = false).
  - assumption.
  - intros c _ Hp. now apply Hr.
  - intros c Hc Hp. now rewrite Hc, Hp.
Qed.

Ltac closed_units :=
  let d := fresh "d" in
  let Hd := fresh "Hd" in
  apply Forall_forall; intros d Hd; vm_compute in Hd;
  repeat match goal with
         | H : _ \/ _ |- _ => destruct H
         | H : False |- _ => destruct H
         end;
  subst; reflexivity.

Ltac replaced_units :=
  let c := fresh "c" in
  let Hc := fresh "Hc" in
  intros c Hc;
  first
    [ solve [constructor]
    | solve [closed_units]
    | assert (c = 1632 \/ c = 1633 \/ c = 1634 \/ c = 1635 \/ c = 1636
              \/ c = 1637 \/ c = 1638 \/ c = 1639 \/ c = 1640 \/ c = 1641
              \/ c = 1776 \/ c = 1777 \/ c = 1778 \/ c = 1779 \/ c = 1780
              \/ c = 1781 \/ c = 1782 \/ c = 1783 \/ c = 1784 \/ c = 1785)
        as Hcases by (unclass; lia);
      clear Hc;
      repeat match goal with
             | H : _ \/ _ |- _ => destruct H
             end;
      subst c; closed_units ].

Ltac next_replacement H :=
  match type of H with
  | Forall _ ?s =>
      match goal with
      | |- context [subst_units ?p ?r s] =>
          apply (@subst_units_avoid _ p r) in H;
          [cbv beta in H | replaced_units]
      end
  end.

(** No unit of a class that the normalizer handles is left in its
    output. *)
Lemma normalizeTimeString_output (raw : option jsstring) :
  Forall (fun c => is_rewritten c = false) (normalizeTimeString raw).
Proof.
  destruct raw as [raw|]; [|constructor].
  rewrite normalizeTimeString_units.
  assert (H : Forall (fun c : Z => false = false) raw)
    by (apply Forall_forall; reflexivity).
  do 15 next_replacement H.
  apply (filter_Forall isWhiteSpace) in H.
  rewrite trim_clean.
  - revert H. apply Forall_impl. intros c [H1 H2]. unclass. lia.
  - revert H. apply Forall_impl. intros c [_ H2]. exact H2.
Qed.

(** A string without such units is left as it is. *)
Lemma normalizeTimeString_fixed (s : jsstring) :
  Forall (fun c => is_rewritten c = false) s ->
  normalizeTimeString (Some s) = s.
Proof.
  intros H. rewrite normalizeTimeString_units.
  repeat match goal with
         | |- context [subst_units ?p ?r s] =>
             rewrite (@subst_units_id p r s)
               by (revert H; apply Forall_impl; intro; unclass; lia)
         end.
  rewrite filter_id by (revert H; apply Forall_impl; intro; unclass; lia).
  apply trim_clean. revert H. apply Forall_impl. intro. unclass. lia.
Qed.

Lemma normalizeTimeString_idempotent (raw : option jsstring) :
  normalizeTimeString (Some (normalizeTimeString raw))
    = normalizeTimeString raw.
Proof.
  apply normalizeTimeString_fixed, normalizeTimeString_output.
Qed.

(** C8: on a string of ASCII digits, colons, commas, periods and
    whitespace, normalizing twice gives what normalizing once gives, and
    the normalized string holds no whitespace (no unit of [\s], and none
    of the space variants of [WEIRD_SPACES_RE]). *)
Theorem normalizeTimeString_idempotent_no_whitespace :
  forall x : jsstring,
    Forall (fun c => timing_alphabet c = true) x ->
    normalizeTimeString (Some (normalizeTimeString (Some x)))
      = normalizeTimeString (Some x)
    /\ Forall (fun c => isWhiteSpace c = false /\ isWeirdSpace c = false)
              (normalizeTimeString (Some x)).
Proof.
  intros x _. split.
  - apply normalizeTimeString_idempotent.
  - generalize (normalizeTimeString_output (Some x)).
    apply Forall_impl. intros c H. unclass. lia.
Qed.

(** ** Timestamps *)

Arguments Regex.consumed : simpl never.

Lemma match_at_TIME_RE (h mm ss f tail : jsstring) (sep : Z) :
  let t := h ++ 58 :: mm ++ 58 :: ss ++ sep :: f ++ tail in
  (1 <= length h)%nat -> all_digits h ->
  length mm = 2%nat -> all_digits mm ->
  length ss = 2%nat -> all_digits ss ->
  dot_or_comma sep = true ->
  (1 <= length f <= 3)%nat -> all_digits f ->
  (length f = 3%nat
   \/ match tail with [] => True | c :: _ => isDigit c = false end) ->
  Regex.match_at TIME_RE t =
    Some {| Regex.whole := Regex.consumed t tail;
            Regex.groups := [h; mm; ss; f];
            Regex.rest := tail |}.
Proof.
  intros t Hh Dh Hm Dm Hs Ds Hsep Hf Df Hstop.
  unfold Regex.match_at, TIME_RE. cbn [Regex.run]. subst t.
  (* hours, then the colon *)
  apply quant_takes_run; try assumption; [|exact I|right; reflexivity].
  rewrite consumed_app. cbn [Regex.run Regex.chr].
  change (58 =? 58) with true. cbv iota.
  (* minutes, then the colon *)
  apply quant_takes_run; try assumption;
    [|lia|simpl; lia|left; now rewrite Hm].
  rewrite consumed_app. change (58 =? 58) with true. cbv iota.
  (* seconds, then the separator *)
  apply quant_takes_run; try assumption;
    [|lia|simpl; lia|left; now rewrite Hs].
  rewrite consumed_app, Hsep.
  (* the fraction *)
  apply quant_takes_run; try assumption; [|lia|simpl; lia|].
  - now rewrite consumed_app.
  - destruct Hstop as [->|Hstop]; [left; reflexivity | right; exact Hstop].
Qed.

Lemma NumberOfDigits_from (s : jsstring) :
  forall acc,
    fold_left (fun a c => 10 * a + (c - 48)) s acc
      = acc * 10 ^ Z.of_nat (length s) + decimal s.
Proof.
  induction s as [|d s IH]; intros acc.
  - simpl. lia.
  - cbn [fold_left decimal length]. rewrite IH.
    rewrite Nat2Z.inj_succ, Z.pow_succ_r by lia. ring.
Qed.

Lemma NumberOfDigits_decimal (s : jsstring) : NumberOfDigits s = decimal s.
Proof.
  unfold NumberOfDigits. rewrite NumberOfDigits_from. lia.
Qed.

Lemma decimal_app (a b : jsstring) :
  decimal (a ++ b) = decimal a * 10 ^ Z.of_nat (length b) + decimal b.
Proof.
  rewrite <- !NumberOfDigits_decimal. unfold NumberOfDigits.
  rewrite fold_left_app, !NumberOfDigits_from. ring.
Qed.

Lemma decimal_zeros (n : nat) : decimal (repeat 48 n) = 0.
Proof.
  induction n as [|n IH]; [reflexivity|]. simpl repeat. cbn [decimal].
  rewrite IH. lia.
Qed.

Lemma padEnd_zeros (n : nat) (s : jsstring) :
  padEnd n (lit "0") s = s ++ repeat 48 (n - length s).
Proof.
  unfold padEnd. f_equal. change (lit "0") with [48].
  induction (n - length s)%nat as [|k IH]; [reflexivity|].
  simpl. now f_equal.
Qed.

(** The Numbers that [timeToMs] computes, one after the other, for fields
    of the values [hh], [mm], [ss] and [ms]: when the last one, the
    result, is at most [MAX_SAFE_INTEGER], so is each of them, and the
    arithmetic of doubles makes no rounding on the way. *)
Lemma timeToMs_steps_safe (hh mm ss ms : Z) :
  0 <= hh -> 0 <= mm -> 0 <= ss -> 0 <= ms ->
  ((hh * 60 + mm) * 60 + ss) * 1000 + ms <= MAX_SAFE_INTEGER ->
  Forall (fun n => 0 <= n <= MAX_SAFE_INTEGER)
         [hh; mm; ss; ms;
          hh * 60; hh * 60 + mm; (hh * 60 + mm) * 60;
          (hh * 60 + mm) * 60 + ss; ((hh * 60 + mm) * 60 + ss) * 1000;
          ((hh * 60 + mm) * 60 + ss) * 1000 + ms].
Proof.
  intros Hh Hm Hs Hms Hle. repeat constructor; lia.
Qed.

(** Hours below 2501999792 (some 285000 years) keep the result at most
    [MAX_SAFE_INTEGER], whatever the two digits of the minutes and of the
    seconds and the three of the milliseconds. *)
Lemma timeToMs_safe_hours (hh mm ss ms : Z) :
  0 <= hh < 2501999792 -> 0 <= mm <= 99 -> 0 <= ss <= 99 -> 0 <= ms <= 999 ->
  ((hh * 60 + mm) * 60 + ss) * 1000 + ms <= MAX_SAFE_INTEGER.
Proof.
  unfold MAX_SAFE_INTEGER. change (2 ^ 53) with 9007199254740992. lia.
Qed.

(** C3: when the normalized timestamp begins with hours of one or more
    digits, a colon, two digits of minutes, a colon, two digits of
    seconds, a period or comma, and a fraction of one to three digits,
    [timeToMs] returns (((hours * 60) + minutes) * 60 + seconds) * 1000
    plus the fraction padded with zeros on the right to three digits.
    So ["00:00:01,500"] gives 1500, ["01:00:00,000"] gives 3600000, and
    ["00:00:00,5"] gives 500.  The sum is at most [MAX_SAFE_INTEGER], the
    range on which the Numbers of the source are exact. *)
Theorem timeToMs_formula :
  (forall (raw : option jsstring) (hh mm ss : jsstring) (sep : Z)
          (frac tail : jsstring),
      begins_with_timestamp (normalizeTimeString raw) hh mm ss sep frac tail ->
      ((decimal hh * 60 + decimal mm) * 60 + decimal ss) * 1000
      + decimal frac * 10 ^ Z.of_nat (3 - length frac) <= MAX_SAFE_INTEGER ->
      timeToMs raw =
        ((decimal hh * 60 + decimal mm) * 60 + decimal ss) * 1000
        + decimal frac * 10 ^ Z.of_nat (3 - length frac))
  /\ timeToMs (Some (lit "00:00:01,500")) = 1500
  /\ timeToMs (Some (lit "01:00:00,000")) = 3600000
  /\ timeToMs (Some (lit "00:00:00,5")) = 500.
Proof.
  split; [|repeat split; reflexivity].
  intros raw hh mm ss sep frac tail
         (Ht & Hh & Dh & Hm & Dm & Hs & Ds & Hsep & Hf & Df & Hstop) _.
  unfold timeToMs. rewrite Ht.
  rewrite match_at_TIME_RE; try assumption.
  - rewrite !NumberOfDigits_decimal, padEnd_zeros, decimal_app, decimal_zeros.
    rewrite repeat_length. ring.
  - unfold dot_or_comma. destruct Hsep; subst sep; reflexivity.
Qed.

(** ** Sorting and re-indexing *)

Section SortFacts.

Variable A : Type.
Variable cmp : A -> A -> Z.

Lemma insert_In (x y : A) (l : list A) :
  In y (JsArray.insert cmp x l) <-> y = x \/ In y l.
Proof.
  induction l as [|z l IH]; simpl.
  - intuition congruence.
  - destruct (cmp x z >? 0); simpl; [rewrite IH|]; intuition congruence.
Qed.

Lemma sort_In (y : A) (l : list A) :
  In y (JsArray.sort cmp l) <-> In y l.
Proof.
  induction l as [|x l IH]; simpl; [reflexivity|].
  rewrite insert_In, IH. intuition congruence.
Qed.

Lemma insert_Forall (P : A -> Prop) (x : A) (l : list A) :
  P x -> Forall P l -> Forall P (JsArray.insert cmp x l).
Proof.
  intros Hx Hl. apply Forall_forall. intros y Hy.
  apply insert_In in Hy. destruct Hy as [->|Hy]; [assumption|].
  rewrite Forall_forall in Hl. now apply Hl.
Qed.

Lemma insert_length (x : A) (l : list A) :
  length (JsArray.insert cmp x l) = S (length l).
Proof.
  induction l as [|z l IH]; simpl; [reflexivity|].
  destruct (cmp x z >? 0); simpl; congruence.
Qed.

Lemma sort_length (l : list A) : length (JsArray.sort cmp l) = length l.
Proof.
  induction l as [|x l IH]; simpl; [reflexivity|].
  now rewrite insert_length, IH.
Qed.

End SortFacts.

Lemma insert_byStart_sorted (x : Cue) (l : list Cue) :
  sorted_by_start l -> sorted_by_start (JsArray.insert byStart x l).
Proof.
  unfold sorted_by_start.
  induction 1 as [|y l Hl IH Hy]; simpl.
  - repeat constructor.
  - unfold byStart at 1.
    destruct (Z.gtb_spec (startMs x - startMs y) 0) as [Hgt|Hle].
    + constructor; [assumption|].
      apply insert_Forall; [lia | assumption].
    + constructor; [constructor; assumption|].
      constructor; [lia|].
      revert Hy. apply Forall_impl. intros z Hz. lia.
Qed.

Lemma sort_byStart_sorted (l : list Cue) :
  sorted_by_start (JsArray.sort byStart l).
Proof.
  induction l as [|x l IH]; simpl.
  - constructor.
  - now apply insert_byStart_sorted.
Qed.

(** The sort is stable: the cues of one start keep their order. *)
Lemma insert_byStart_filter (k : Z) (x : Cue) (l : list Cue) :
  filter (fun c => startMs c =? k) (JsArray.insert byStart x l)
    = filter (fun c => startMs c =? k) (x :: l).
Proof.
  induction l as [|y l IH]; [reflexivity|].
  cbn [JsArray.insert]. unfold byStart at 1.
  destruct (Z.gtb_spec (startMs x - startMs y) 0) as [Hgt|Hle];
    [|reflexivity].
  cbn [filter] in *. rewrite IH.
  destruct (Z.eqb_spec (startMs x) k), (Z.eqb_spec (startMs y) k);
    try reflexivity.
  lia.
Qed.

Lemma sort_byStart_filter (k : Z) (l : list Cue) :
  filter (fun c => startMs c =? k) (JsArray.sort byStart l)
    = filter (fun c => startMs c =? k) l.
Proof.
  induction l as [|x l IH]; [reflexivity|].
  cbn [JsArray.sort]. rewrite insert_byStart_filter.
  cbn [filter]. now rewrite IH.
Qed.

Lemma mapi_from_nth (l : list Cue) :
  forall (i0 : Z) (i : nat) (c : Cue),
    nth_error (JsArray.mapi_from with_index i0 l) i = Some c ->
    index c = i0 + Z.of_nat i
    /\ exists c0, nth_error l i = Some c0 /\ cue_body c = cue_body c0.
Proof.
  induction l as [|x l IH]; intros i0 i c H.
  - destruct i; discriminate.
  - destruct i as [|i]; simpl in H.
    + injection H as <-. split; [simpl; lia|]. exists x. now split.
    + apply IH in H. destruct H as [Hi Hc]. split; [lia | exact Hc].
Qed.

Lemma mapi_from_map (f : Cue -> Z) (l : list Cue) :
  (forall c i, f (with_index c i) = f c) ->
  forall i0, map f (JsArray.mapi_from with_index i0 l) = map f l.
Proof.
  intros Hf. induction l as [|x l IH]; intros i0; simpl; [reflexivity|].
  now rewrite Hf, IH.
Qed.

Lemma mapi_from_starting_at (k : Z) (l : list Cue) :
  forall i0,
    starting_at k (JsArray.mapi_from with_index i0 l) = starting_at k l.
Proof.
  unfold starting_at.
  induction l as [|x l IH]; intros i0; simpl; [reflexivity|].
  destruct (startMs x =? k); simpl; now rewrite IH.
Qed.

Lemma mapi_from_In (c0 : Cue) (l : list Cue) :
  In c0 l ->
  forall i0, exists c, In c (JsArray.mapi_from with_index i0 l)
                       /\ cue_body c = cue_body c0.
Proof.
  induction l as [|x l IH]; intros Hin i0; [destruct Hin|].
  destruct Hin as [->|Hin]; simpl.
  - exists (with_index c0 i0). split; [now left | reflexivity].
  - destruct (IH Hin (i0 + 1)) as [c [Hc Hb]]. exists c. split; [now right | exact Hb].
Qed.

Lemma sorted_by_start_mapi (l : list Cue) :
  sorted_by_start l ->
  forall i0, sorted_by_start (JsArray.mapi_from with_index i0 l).
Proof.
  unfold sorted_by_start.
  induction 1 as [|x l Hl IH Hx]; intros i0; simpl; constructor.
  - apply IH.
  - apply Forall_forall. intros c Hc.
    destruct (In_nth_error _ _ Hc) as [i Hi].
    apply mapi_from_nth in Hi. destruct Hi as [_ [c0 [Hc0 Hb]]].
    rewrite Forall_forall in Hx. specialize (Hx c0 (nth_error_In _ _ Hc0)).
    unfold cue_body in Hb. simpl. congruence.
Qed.

Lemma parseSrt_cuesInBlockOrder (srtText : option jsstring) :
  parseSrt srtText =
    JsArray.mapi with_index (JsArray.sort byStart (cuesInBlockOrder srtText)).
Proof.
  destruct srtText as [[|c s]|]; reflexivity.
Qed.

(** C4: for every document, the cues that [parseSrt] returns are sorted by
    [startMs], the cues of one [startMs] stand in the order of their
    blocks (the sort is stable), and the [index] of each cue is its
    position in the result, from 0 to n - 1. *)
Theorem parseSrt_sorted_stable_reindexed :
  forall srtText : option jsstring,
    sorted_by_start (parseSrt srtText)
    /\ (forall k : Z,
          starting_at k (parseSrt srtText)
            = starting_at k (cuesInBlockOrder srtText))
    /\ (forall (i : nat) (c : Cue),
          nth_error (parseSrt srtText) i = Some c -> index c = Z.of_nat i)
    /\ map index (parseSrt srtText)
         = map Z.of_nat (seq 0 (length (parseSrt srtText))).
Proof.
  intros srtText. rewrite parseSrt_cuesInBlockOrder.
  set (pushed := cuesInBlockOrder srtText).
  assert (Hnth : forall (i : nat) (c : Cue),
             nth_error (JsArray.mapi with_index (JsArray.sort byStart pushed)) i
               = Some c -> index c = Z.of_nat i).
  { intros i c H. apply mapi_from_nth in H. destruct H as [H _]. lia. }
  split; [|split; [|split]].
  - apply sorted_by_start_mapi, sort_byStart_sorted.
  - intros k. unfold JsArray.mapi. rewrite mapi_from_starting_at.
    unfold starting_at. now rewrite sort_byStart_filter.
  - exact Hnth.
  - apply nth_error_ext. intros i.
    rewrite !nth_error_map, nth_error_seq.
    set (out := JsArray.mapi with_index (JsArray.sort byStart pushed)) in *.
    destruct (nth_error out i) as [c|] eqn:Hc; simpl.
    + rewrite (Hnth i c Hc).
      assert (Hlt : (i < length out)%nat) by (apply nth_error_Some; congruence).
      apply Nat.ltb_lt in Hlt. now rewrite Hlt.
    + apply nth_error_None in Hc. apply Nat.ltb_ge in Hc. now rewrite Hc.
Qed.

(** ** The block loop of the parser *)

Lemma findIndex_from_none (A : Type) (p : A -> bool) (l : list A) :
  Forall (fun x => p x = false) l ->
  forall i, JsArray.findIndex_from p i l = -1.
Proof.
  induction 1 as [|x l Hx _ IH]; intros i; simpl; [reflexivity|].
  rewrite Hx. apply IH.
Qed.

Lemma startsWith_arrow_matches (s : jsstring) :
  startsWith (lit "-->") s = true ->
  exists m, Regex.match_at ARROW_RE s = Some m.
Proof.
  change (lit "-->") with [45; 45; 62].
  destruct s as [|a [|b [|c s]]]; cbn [startsWith];
    try discriminate; try (rewrite ?andb_false_r; discriminate).
  intros H. apply andb_true_iff in H. destruct H as [Ha H].
  apply andb_true_iff in H. destruct H as [Hb H].
  apply andb_true_iff in H. destruct H as [Hc _].
  apply Z.eqb_eq in Ha, Hb, Hc. subst a b c.
  eexists. reflexivity.
Qed.

Lemma includes_arrow_test (s : jsstring) :
  includes (lit "-->") s = true -> Regex.test ARROW_RE s = true.
Proof.
  unfold Regex.test.
  induction s as [|c s IH]; intros H.
  - discriminate.
  - cbn [includes] in H. apply orb_true_iff in H. destruct H as [H|H].
    + destruct (startsWith_arrow_matches _ H) as [m Hm].
      cbn [Regex.exec]. now rewrite Hm.
    + specialize (IH H). cbn [Regex.exec].
      destruct (Regex.match_at ARROW_RE (c :: s)); [reflexivity | exact IH].
Qed.

Lemma no_timing_line_idx (block : jsstring) :
  has_no_timing_line block -> timeLineIdxOf (linesOf block) = -1.
Proof.
  unfold has_no_timing_line, timeLineIdxOf, JsArray.findIndex. intros H.
  rewrite findIndex_from_none.
  - simpl. now apply findIndex_from_none.
  - revert H. apply Forall_impl. intros l Hl.
    destruct (includes (lit "-->") l) eqn:E; [|reflexivity].
    apply includes_arrow_test in E. congruence.
Qed.

Lemma parseTimingLine_no_match (line : jsstring) :
  Regex.exec TIMING_LINE_RE (normalizeTimeString (Some line)) = None ->
  parseTimingLine (Some line) = None.
Proof.
  intros H. unfold parseTimingLine. destruct line; [reflexivity|].
  now rewrite H.
Qed.

Lemma parseBlock_skip (st : list Cue * Z) (block : jsstring) :
  has_no_timing_line block \/ timing_line_fails block ->
  parseBlock st block = st.
Proof.
  intros [H|[line [Hline Hexec]]]; unfold parseBlock; destruct st as [cues n].
  - now rewrite (no_timing_line_idx H).
  - rewrite Hline, (parseTimingLine_no_match _ Hexec).
    now destruct (timeLineIdxOf (linesOf block) =? -1).
Qed.

Lemma parseTimingLine_undefined : parseTimingLine None = None.
Proof. reflexivity. Qed.

Lemma parseBlock_push (cues : list Cue) (n : Z) (block : jsstring)
      (timing : Timing.t) :
  parseTimingLine
    (JsArray.get (linesOf block) (timeLineIdxOf (linesOf block))) = Some timing ->
  parseBlock (cues, n) block =
    (cues ++ [ {| index := n;
                  startMs := Timing.startMs timing;
                  endMs := Timing.endMs timing;
                  text := cueTextOf (linesOf block)
                                    (timeLineIdxOf (linesOf block)) |} ],
     n + 1).
Proof.
  intros H. unfold parseBlock.
  destruct (Z.eqb_spec (timeLineIdxOf (linesOf block)) (-1)) as [E|_].
  - rewrite E in H. discriminate.
  - now rewrite H.
Qed.

Lemma parseBlock_cases (cues : list Cue) (n : Z) (block : jsstring) :
  parseBlock (cues, n) block = (cues, n)
  \/ exists c, parseBlock (cues, n) block = (cues ++ [c], n + 1).
Proof.
  unfold parseBlock.
  destruct (timeLineIdxOf (linesOf block) =? -1); [now left|].
  destruct (parseTimingLine _); [right; eexists; reflexivity | now left].
Qed.

Lemma fold_parseBlock_keeps (blocks : list jsstring) :
  forall (st : list Cue * Z) (c : Cue),
    In c (fst st) -> In c (fst (fold_left parseBlock blocks st)).
Proof.
  induction blocks as [|b blocks IH]; intros [cues n] c Hc; [exact Hc|].
  cbn [fold_left]. apply IH.
  destruct (parseBlock_cases cues n b) as [->|[c' ->]]; simpl in *.
  - assumption.
  - apply in_or_app. now left.
Qed.

Lemma fold_parseBlock_length (blocks : list jsstring) :
  forall st : list Cue * Z,
    (length (fst (fold_left parseBlock blocks st))
     <= length (fst st) + length blocks)%nat.
Proof.
  induction blocks as [|b blocks IH]; intros [cues n]; cbn [fold_left].
  - simpl. lia.
  - specialize (IH (parseBlock (cues, n) b)).
    cbn [length fst].
    destruct (parseBlock_cases cues n b) as [E|[c' E]]; rewrite E in IH |- *;
      cbn [fst] in IH; [|rewrite length_app in IH; cbn [length] in IH]; lia.
Qed.

Lemma fold_parseBlock_skip (before after : list jsstring) (block : jsstring)
      (st : list Cue * Z) :
  has_no_timing_line block \/ timing_line_fails block ->
  fold_left parseBlock (before ++ block :: after) st
    = fold_left parseBlock (before ++ after) st.
Proof.
  intros H. rewrite !fold_left_app. cbn [fold_left].
  now rewrite (parseBlock_skip _ H).
Qed.

Lemma mapi_from_length (l : list Cue) :
  forall i0, length (JsArray.mapi_from with_index i0 l) = length l.
Proof.
  induction l as [|x l IH]; intros i0; simpl; [reflexivity|].
  now rewrite IH.
Qed.

(** C5: [parseSrt] is a total function of its text argument (no step of
    it can raise); [null] and the empty text give no cue; a block without
    an arrow variant on any line, or whose timing line does not match the
    timestamp-arrow-timestamp pattern once normalized, leaves the state of
    the loop as it is, so that the result is that of the document without
    the block; and no block gives more than one cue. *)
Theorem parseSrt_total_skips_malformed_blocks :
  parseSrt None = [] /\ parseSrt (Some []) = []
  /\ (forall (st : list Cue * Z) (block : jsstring),
         has_no_timing_line block \/ timing_line_fails block ->
         parseBlock st block = st)
  /\ (forall (srtText : jsstring) (before after : list jsstring)
             (block : jsstring),
         srtText <> [] -> blocksOf srtText = before ++ block :: after ->
         has_no_timing_line block \/ timing_line_fails block ->
         parseSrt (Some srtText) =
           JsArray.mapi with_index
             (JsArray.sort byStart (collectCues (before ++ after)))
         /\ (length (parseSrt (Some srtText))
             <= length before + length after)%nat).
Proof.
  split; [reflexivity|]. split; [reflexivity|].
  split; [exact parseBlock_skip|].
  intros srtText before after block Hne Hblocks Hskip.
  assert (E : parseSrt (Some srtText) =
              JsArray.mapi with_index
                (JsArray.sort byStart (collectCues (before ++ after)))).
  { destruct srtText as [|c s]; [congruence|].
    unfold parseSrt, collectCues. rewrite Hblocks.
    now rewrite (fold_parseBlock_skip _ _ _ Hskip). }
  split; [exact E|].
  rewrite E. unfold JsArray.mapi, collectCues.
  rewrite mapi_from_length, sort_length.
  pose proof (fold_parseBlock_length (before ++ after) ([], 0)) as H.
  simpl in H. rewrite length_app in H. exact H.
Qed.

(** ** The text of a cue *)

Lemma cueTextOf_captionLines (block : jsstring) :
  cueTextOf (linesOf block) (timeLineIdxOf (linesOf block))
    = trim (join LF (captionLinesOf block)).
Proof. reflexivity. Qed.

Lemma collectCues_In (blocks : list jsstring) (block : jsstring)
      (timing : Timing.t) :
  In block blocks ->
  parseTimingLine
    (JsArray.get (linesOf block) (timeLineIdxOf (linesOf block))) = Some timing ->
  forall st : list Cue * Z,
  exists c, In c (fst (fold_left parseBlock blocks st))
            /\ cue_body c = (Timing.startMs timing, Timing.endMs timing,
                             trim (join LF (captionLinesOf block))).
Proof.
  intros Hin Ht. induction blocks as [|b blocks IH]; [destruct Hin|].
  intros [cues n]. cbn [fold_left]. destruct Hin as [->|Hin].
  - rewrite (parseBlock_push cues n _ Ht).
    eexists. split.
    + apply fold_parseBlock_keeps. cbn [fst]. apply in_or_app. right.
      left. reflexivity.
    + reflexivity.
  - apply (IH Hin).
Qed.

Lemma slice_end (A : Type) (l : list A) :
  JsArray.slice (Z.of_nat (length l) - 1 + 1) l = [].
Proof.
  unfold JsArray.slice.
  destruct (Z.ltb_spec (Z.of_nat (length l) - 1 + 1) 0) as [H|H]; [lia|].
  apply skipn_all2. lia.
Qed.

(** C6: a block whose timing line parses and is its last line gives a
    cue, with the times of the line and the empty string as text; the cue
    is in the result of [parseSrt]. *)
Theorem parseSrt_keeps_cue_without_text :
  forall (srtText block : jsstring) (timing : Timing.t),
    srtText <> [] -> In block (blocksOf srtText) ->
    timeLineIdxOf (linesOf block) = Z.of_nat (length (linesOf block)) - 1 ->
    parseTimingLine
      (JsArray.get (linesOf block) (timeLineIdxOf (linesOf block)))
      = Some timing ->
    exists c : Cue,
      In c (parseSrt (Some srtText))
      /\ startMs c = Timing.startMs timing /\ endMs c = Timing.endMs timing
      /\ text c = [].
Proof.
  intros srtText block timing Hne Hin Hlast Ht.
  destruct (collectCues_In _ _ Hin Ht ([], 0)) as [c0 [Hc0 Hb0]].
  assert (Hempty : captionLinesOf block = []).
  { unfold captionLinesOf. rewrite Hlast, slice_end. reflexivity. }
  rewrite Hempty in Hb0.
  destruct srtText as [|u s]; [congruence|].
  unfold parseSrt. fold (collectCues (blocksOf (u :: s))).
  apply (sort_In byStart) in Hc0.
  destruct (mapi_from_In _ _ Hc0 0) as [c [Hc Hb]].
  exists c. split; [exact Hc|].
  rewrite Hb0 in Hb. unfold cue_body in Hb.
  injection Hb as H1 H2 H3. auto.
Qed.

Lemma trimStart_head (s : jsstring) :
  trimStart s = []
  \/ exists c r, trimStart s = c :: r /\ isWhiteSpace c = false.
Proof.
  induction s as [|c s IH]; [now left|]. simpl.
  destruct (isWhiteSpace c) eqn:E; [exact IH|].
  right. now exists c, s.
Qed.

Lemma trimEnd_last (s : jsstring) :
  trimEnd s = []
  \/ exists init c, trimEnd s = init ++ [c] /\ isWhiteSpace c = false.
Proof.
  unfold trimEnd.
  destruct (trimStart_head (rev s)) as [->|[c [r [-> Hc]]]]; [now left|].
  right. exists (rev r), c. now split.
Qed.

Lemma trimStart_ends_visibly (l : jsstring) :
  ends_visibly l -> ends_visibly (trimStart l).
Proof.
  intros [init [c [-> Hc]]].
  induction init as [|x init IH]; simpl.
  - rewrite Hc. now exists [], c.
  - destruct (isWhiteSpace x); [exact IH|].
    now exists (x :: init), c.
Qed.

Lemma trimStart_app_visible (l rest : jsstring) :
  ends_visibly l -> trimStart (l ++ rest) = trimStart l ++ rest.
Proof.
  intros [init [c [-> Hc]]].
  induction init as [|x init IH]; simpl.
  - now rewrite Hc.
  - destruct (isWhiteSpace x); [exact IH | reflexivity].
Qed.

Lemma trimEnd_ends_visibly (l : jsstring) : ends_visibly l -> trimEnd l = l.
Proof.
  intros [init [c [-> Hc]]]. unfold trimEnd.
  rewrite rev_app_distr. simpl. rewrite Hc. simpl.
  now rewrite rev_involutive.
Qed.

Lemma ends_visibly_app (a l : jsstring) :
  ends_visibly l -> ends_visibly (a ++ l).
Proof.
  intros [init [c [-> Hc]]]. exists (a ++ init), c.
  split; [now rewrite app_assoc | exact Hc].
Qed.

Lemma join_LF_cons (l : jsstring) (rest : list jsstring) :
  join LF (l :: rest) = l ++ flat_map (fun x => LF ++ x) rest.
Proof.
  revert l. induction rest as [|l' rest IH]; intros l.
  - simpl. now rewrite app_nil_r.
  - change (join LF (l :: l' :: rest)) with (l ++ LF ++ join LF (l' :: rest)).
    rewrite IH. cbn [flat_map]. now rewrite <- !app_assoc.
Qed.

Lemma joined_lines_end_visibly (others : list jsstring) :
  Forall ends_visibly others ->
  forall prefix : jsstring,
    ends_visibly prefix ->
    ends_visibly (prefix ++ flat_map (fun l => LF ++ l) others).
Proof.
  induction 1 as [|l others Hl _ IH]; intros prefix Hp.
  - simpl. now rewrite app_nil_r.
  - cbn [flat_map]. rewrite <- app_assoc, !app_assoc.
    apply IH. now apply ends_visibly_app.
Qed.

Lemma trim_join_lines (first : jsstring) (others : list jsstring) :
  Forall ends_visibly (first :: others) ->
  trim (join LF (first :: others))
    = trimStart first ++ flat_map (fun l => LF ++ l) others.
Proof.
  intros H. inversion H as [|? ? Hfirst Hothers]; subst.
  rewrite join_LF_cons. unfold trim.
  rewrite trimStart_app_visible by assumption.
  apply trimEnd_ends_visibly.
  apply joined_lines_end_visibly; [assumption|].
  now apply trimStart_ends_visibly.
Qed.

Lemma skipn_In (A : Type) (n : nat) (l : list A) (x : A) :
  In x (skipn n l) -> In x l.
Proof.
  intros H. rewrite <- (firstn_skipn n l). apply in_or_app. now right.
Qed.

Lemma captionLines_end_visibly (block : jsstring) :
  Forall ends_visibly (captionLinesOf block).
Proof.
  apply Forall_forall. intros l Hl. unfold captionLinesOf in Hl.
  apply filter_In in Hl. destruct Hl as [Hin Hlen].
  assert (Hline : In l (linesOf block)).
  { unfold JsArray.slice in Hin.
    destruct (_ <? 0) in Hin; eapply skipn_In; eassumption. }
  unfold linesOf in Hline. apply in_map_iff in Hline.
  destruct Hline as [l0 [<- _]].
  destruct (trimEnd_last l0) as [E|H]; [|exact H].
  rewrite E in Hlen. discriminate.
Qed.

(** C7, as the code has it: every line of a block is trimmed at its end
    only, and the text of the cue is the caption lines joined by line
    feeds and then trimmed as a whole; so every caption line but the
    first keeps its leading whitespace, and the first one loses it. *)
Theorem parseBlock_text_keeps_inner_indent :
  forall (cues : list Cue) (n : Z) (block : jsstring) (timing : Timing.t),
    parseTimingLine
      (JsArray.get (linesOf block) (timeLineIdxOf (linesOf block)))
      = Some timing ->
    linesOf block = map trimEnd (split LF block)
    /\ exists cueText : jsstring,
         parseBlock (cues, n) block =
           (cues ++ [ {| index := n;
                         startMs := Timing.startMs timing;
                         endMs := Timing.endMs timing;
                         text := cueText |} ], n + 1)
         /\ cueText =
              match captionLinesOf block with
              | [] => []
              | first :: others =>
                  trimStart first ++ flat_map (fun l => LF ++ l) others
              end.
Proof.
  intros cues n block timing Ht. split; [reflexivity|].
  eexists. split; [apply (parseBlock_push cues n _ Ht)|].
  rewrite cueTextOf_captionLines.
  pose proof (captionLines_end_visibly block) as H.
  destruct (captionLinesOf block) as [|first others]; [reflexivity|].
  now apply trim_join_lines.
Qed.

(** Against C7 as it is stated: the first caption line of
    [indented_block] is indented by two spaces, and the text of its cue
    begins with ["Hello"]; the leading whitespace of that line is not in
    the text, which is not the caption lines joined as they are. *)
Lemma parseSrt_first_caption_line_loses_indent :
  captionLinesOf indented_block = [lit "  Hello"; lit "  World"]
  /\ map text (parseSrt (Some indented_block))
       = [lit "Hello" ++ LF ++ lit "  World"]
  /\ map text (parseSrt (Some indented_block))
       <> [join LF (captionLinesOf indented_block)].
Proof.
  split; [reflexivity|]. split; [reflexivity|].
  vm_compute. discriminate.
Qed.

(** ** The cue locator *)

Lemma ToInt32_small (a : Z) : 0 <= a < 2 ^ 31 -> ToInt32 a = a.
Proof.
  intros H. unfold ToInt32.
  rewrite Z.mod_small by lia.
  destruct (a <? 2 ^ 31) eqn:E; [reflexivity | apply Z.ltb_ge in E; lia].
Qed.

Lemma sar_1_half (a : Z) : 0 <= a < 2 ^ 31 -> sar a 1 = a / 2.
Proof.
  intros H. unfold sar. rewrite ToInt32_small by assumption.
  change (1 mod 32) with 1. rewrite Z.shiftr_div_pow2 by lia.
  reflexivity.
Qed.

Lemma get_nth_error (A : Type) (a : list A) (i : nat) :
  JsArray.get a (Z.of_nat i) = nth_error a i.
Proof.
  unfold JsArray.get.
  destruct (Z.of_nat i <? 0) eqn:E; [apply Z.ltb_lt in E; lia|].
  now rewrite Nat2Z.id.
Qed.

Lemma get_in_range (A : Type) (a : list A) (i : Z) :
  0 <= i < Z.of_nat (length a) -> exists x, JsArray.get a i = Some x.
Proof.
  intros H. rewrite <- (Z2Nat.id i) by lia. rewrite get_nth_error.
  destruct (nth_error a (Z.to_nat i)) eqn:E; [eauto|].
  apply nth_error_None in E. lia.
Qed.

Lemma get_Some_range (A : Type) (a : list A) (i : Z) (x : A) :
  JsArray.get a i = Some x ->
  0 <= i < Z.of_nat (length a) /\ nth_error a (Z.to_nat i) = Some x.
Proof.
  unfold JsArray.get. destruct (i <? 0) eqn:E; [discriminate|].
  apply Z.ltb_ge in E. intros H. split; [|assumption].
  assert (Z.to_nat i < length a)%nat by (apply nth_error_Some; congruence).
  lia.
Qed.

Lemma StronglySorted_nth (A : Type) (R : A -> A -> Prop) (l : list A) :
  StronglySorted R l ->
  forall i j a b, (i < j)%nat ->
    nth_error l i = Some a -> nth_error l j = Some b -> R a b.
Proof.
  induction 1 as [|x l Hl IH Hx]; intros i j a b Hij Ha Hb.
  - destruct i; discriminate.
  - destruct j as [|j]; [lia|]. simpl in Hb.
    destruct i as [|i]; simpl in Ha.
    + injection Ha as <-. rewrite Forall_forall in Hx.
      apply Hx. eapply nth_error_In; eassumption.
    + apply (IH i j); [lia | assumption | assumption].
Qed.

(** One turn of the loop, for bounds inside the array: the midpoint is the
    floor of the mean, it names a cue, and the three branches are those of
    the source. *)
Lemma findCueIndex_loop_turn (fuel : nat) (cues : list Cue)
      (positionMs lo hi best : Z) :
  0 <= lo -> lo <= hi -> hi < Z.of_nat (length cues) ->
  Z.of_nat (length cues) <= MAX_CUES ->
  let mid := (lo + hi) / 2 in
  lo <= mid <= hi /\
  exists c, JsArray.get cues mid = Some c /\
    findCueIndex_loop (S fuel) cues positionMs lo hi best =
      if positionMs <? startMs c then
        findCueIndex_loop fuel cues positionMs lo (mid - 1) best
      else if positionMs >? endMs c then
        findCueIndex_loop fuel cues positionMs (mid + 1) hi mid
      else Returns mid.
Proof.
  intros Hlo Hle Hhi Hmax mid. unfold MAX_CUES in Hmax.
  assert (Hmid : lo <= mid <= hi).
  { subst mid. split.
    - apply Z.div_le_lower_bound; lia.
    - apply Z.div_le_upper_bound; lia. }
  split; [assumption|].
  destruct (@get_in_range _ cues mid) as [c Hc]; [lia|].
  exists c. split; [assumption|].
  simpl. apply Z.leb_le in Hle. rewrite Hle.
  rewrite sar_1_half by lia. fold mid. rewrite Hc. reflexivity.
Qed.

Lemma findCueIndex_loop_exit (fuel : nat) (cues : list Cue)
      (positionMs lo hi best : Z) :
  hi < lo ->
  findCueIndex_loop (S fuel) cues positionMs lo hi best =
    Returns (Z.max 0 (Z.min best (Z.of_nat (length cues) - 1))).
Proof.
  intros H. simpl. apply Z.leb_gt in H. now rewrite H.
Qed.

(** For cues that are intervals and are sorted by their start, not to
    overlap is to share no position. *)
Lemma non_overlapping_disjoint (cues : list Cue) :
  non_overlapping cues -> ForallOrdPairs disjoint cues.
Proof.
  induction 1 as [|a l Hl IH Ha]; constructor; [|exact IH].
  revert Ha. apply Forall_impl. intros b Hab t [[_ Ht] [Hs _]]. lia.
Qed.

Lemma disjoint_non_overlapping (cues : list Cue) :
  Forall is_interval cues -> sorted_by_start cues ->
  ForallOrdPairs disjoint cues -> non_overlapping cues.
Proof.
  intros Hwf Hsorted Hdis. unfold non_overlapping.
  induction Hdis as [|a l Ha Hl IH]; [constructor|].
  inversion Hwf as [|? ? Hwa Hwl]; subst.
  inversion Hsorted as [|? ? Hsl Hsa]; subst.
  constructor; [now apply IH|].
  rewrite Forall_forall in *. intros b Hb.
  specialize (Ha b Hb). specialize (Hwl b Hb). specialize (Hsa b Hb).
  unfold disjoint, contains, is_interval in *.
  destruct (Z_lt_le_dec (endMs a) (startMs b)) as [?|Hle]; [assumption|].
  exfalso. apply (Ha (startMs b)). lia.
Qed.

(** A cue whose end is before its start shares no position with any cue,
    and can still hide a cue that contains the position: position 60 is in
    the first of [degenerate_cues] and is located at the second. *)
Remark findCueIndex_degenerate_cue :
  sorted_by_start degenerate_cues
  /\ ForallOrdPairs disjoint degenerate_cues
  /\ contains (mkCue 0 0 100) 60
  /\ findCueIndex 4 (Some degenerate_cues) 60 = Returns 1.
Proof.
  split; [repeat (constructor; try (simpl; lia))|].
  split; [|split; [unfold contains; simpl; lia | reflexivity]].
  repeat constructor; intros t; unfold contains; simpl; lia.
Qed.

Section Locator.

Variable cues : list Cue.
Variable positionMs : Z.
Hypothesis Hmax : Z.of_nat (length cues) <= MAX_CUES.

Let len : Z := Z.of_nat (length cues).

(** Whatever the cues are, the loop ends inside the array. *)
Lemma findCueIndex_loop_in_bounds (fuel : nat) :
  forall lo hi best,
    0 <= lo -> hi < len -> lo <= hi + 1 -> 0 <= best < len ->
    hi - lo + 1 < Z.of_nat fuel ->
    exists i, findCueIndex_loop fuel cues positionMs lo hi best = Returns i
              /\ 0 <= i <= len - 1.
Proof.
  induction fuel as [|fuel IH]; intros lo hi best Hlo Hhi Hle Hbest Hfuel.
  - lia.
  - destruct (Z_le_gt_dec lo hi) as [Hin|Hout].
    + destruct (@findCueIndex_loop_turn fuel cues positionMs lo hi best)
        as [Hmid [c [_ ->]]]; try assumption.
      set (mid := (lo + hi) / 2) in *.
      destruct (positionMs <? startMs c).
      * apply IH; lia.
      * destruct (positionMs >? endMs c).
        -- apply IH; lia.
        -- exists mid. split; [reflexivity | lia].
    + rewrite findCueIndex_loop_exit by lia.
      eexists. split; [reflexivity|]. fold len. lia.
Qed.

Hypothesis Hsorted : sorted_by_start cues.
Hypothesis Hapart : non_overlapping cues.

Lemma start_mono (i j : Z) (a b : Cue) :
  i < j -> JsArray.get cues i = Some a -> JsArray.get cues j = Some b ->
  startMs a <= startMs b.
Proof.
  intros Hij Ha Hb.
  apply get_Some_range in Ha, Hb. destruct Ha as [Hi Ha], Hb as [Hj Hb].
  apply (StronglySorted_nth Hsorted) with (i := Z.to_nat i) (j := Z.to_nat j);
    [lia | assumption | assumption].
Qed.

Lemma end_before_start (i j : Z) (a b : Cue) :
  i < j -> JsArray.get cues i = Some a -> JsArray.get cues j = Some b ->
  endMs a < startMs b.
Proof.
  intros Hij Ha Hb.
  apply get_Some_range in Ha, Hb. destruct Ha as [Hi Ha], Hb as [Hj Hb].
  apply (StronglySorted_nth Hapart) with (i := Z.to_nat i) (j := Z.to_nat j);
    [lia | assumption | assumption].
Qed.

(** The search keeps the cue that contains the position between [lo]
    and [hi], and stops on it. *)
Lemma findCueIndex_loop_finds (t : Z) (ct : Cue) :
  JsArray.get cues t = Some ct -> contains ct positionMs ->
  forall (fuel : nat) lo hi best,
    0 <= lo -> hi < len -> lo <= t <= hi ->
    hi - lo < Z.of_nat fuel ->
    findCueIndex_loop fuel cues positionMs lo hi best = Returns t.
Proof.
  intros Ht [Hs He].
  induction fuel as [|fuel IH]; intros lo hi best Hlo Hhi Hin Hfuel.
  - lia.
  - destruct (@findCueIndex_loop_turn fuel cues positionMs lo hi best)
      as [Hmid [c [Hc ->]]]; try assumption; try lia.
    set (mid := (lo + hi) / 2) in *.
    destruct (Z.ltb_spec positionMs (startMs c)) as [Hlt|Hge].
    + (* the cue at mid starts after the position: t is below mid *)
      apply IH; try lia.
      destruct (Z.lt_total t mid) as [?|[Heq|Hgt]]; [lia| |].
      * rewrite Heq, Hc in Ht. injection Ht as <-. lia.
      * pose proof (@start_mono mid t c ct Hgt Hc Ht). lia.
    + destruct (Z.gtb_spec positionMs (endMs c)) as [Hgt|Hle].
      * (* the cue at mid has ended: t is above mid *)
        apply IH; try lia.
        destruct (Z.lt_total t mid) as [Hlt|[Heq|?]]; [| |lia].
        -- pose proof (@end_before_start t mid ct c Hlt Ht Hc). lia.
        -- rewrite Heq, Hc in Ht. injection Ht as <-. lia.
      * (* the cue at mid contains the position: it is t *)
        destruct (Z.lt_total mid t) as [Hlt|[Heq|Hgt]].
        -- pose proof (@end_before_start mid t c ct Hlt Hc Ht). lia.
        -- now rewrite Heq.
        -- pose proof (@end_before_start t mid ct c Hgt Ht Hc). lia.
Qed.

Hypothesis Hnone : forall c, In c cues -> ~ contains c positionMs.

(** When no cue contains the position, the cues below [lo] have ended,
    the cues above [hi] have not started, and [best] trails [lo]. *)
Lemma findCueIndex_loop_gap (fuel : nat) :
  forall lo hi best,
    0 <= lo -> hi < len -> lo <= hi + 1 ->
    best = Z.max 0 (lo - 1) ->
    (forall i c, 0 <= i < lo -> JsArray.get cues i = Some c ->
                 endMs c < positionMs) ->
    (forall i c, hi < i -> JsArray.get cues i = Some c ->
                 positionMs < startMs c) ->
    hi - lo + 1 < Z.of_nat fuel ->
    exists lo',
      findCueIndex_loop fuel cues positionMs lo hi best
        = Returns (Z.max 0 (lo' - 1))
      /\ 0 <= lo' <= len
      /\ (forall i c, 0 <= i < lo' -> JsArray.get cues i = Some c ->
                      endMs c < positionMs)
      /\ (forall i c, lo' <= i -> JsArray.get cues i = Some c ->
                      positionMs < startMs c).
Proof.
  induction fuel as [|fuel IH];
    intros lo hi best Hlo Hhi Hle Hbest Hbelow Habove Hfuel.
  - lia.
  - destruct (Z_le_gt_dec lo hi) as [Hin|Hout].
    + destruct (@findCueIndex_loop_turn fuel cues positionMs lo hi best)
        as [Hmid [c [Hc ->]]]; try assumption.
      set (mid := (lo + hi) / 2) in *.
      destruct (Z.ltb_spec positionMs (startMs c)) as [Hlt|Hge].
      * apply IH; try lia; try assumption.
        intros i ci Hi Hci.
        destruct (Z.eq_dec i mid) as [Heq|Hne].
        -- rewrite Heq, Hc in Hci. injection Hci as <-. lia.
        -- pose proof (@start_mono mid i c ci ltac:(lia) Hc Hci). lia.
      * destruct (Z.gtb_spec positionMs (endMs c)) as [Hgt|Hle'].
        -- apply IH; try lia; try assumption.
           intros i ci Hi Hci.
           destruct (Z.eq_dec i mid) as [Heq|Hne].
           ++ rewrite Heq, Hc in Hci. injection Hci as <-. lia.
           ++ pose proof (@end_before_start i mid ci c ltac:(lia) Hci Hc).
              lia.
        -- exfalso. apply (Hnone (c := c)).
           ++ apply get_Some_range in Hc. destruct Hc as [_ Hc].
              eapply nth_error_In; eassumption.
           ++ unfold contains. lia.
    + rewrite findCueIndex_loop_exit by lia.
      exists lo. assert (lo = hi + 1) by lia.
      split; [f_equal; fold len; lia|].
      split; [lia|]. split; [assumption|].
      intros i c Hi Hc. apply (Habove i); [lia | assumption].
Qed.

End Locator.

Lemma findCueIndex_nonempty (fuel : nat) (cues : list Cue) (positionMs : Z) :
  cues <> [] ->
  findCueIndex fuel (Some cues) positionMs =
    findCueIndex_loop fuel cues positionMs 0 (Z.of_nat (length cues) - 1) 0.
Proof.
  destruct cues; [congruence | reflexivity].
Qed.

Lemma nonempty_length (A : Type) (l : list A) :
  l <> [] -> 0 < Z.of_nat (length l).
Proof.
  destruct l; [congruence | simpl; lia].
Qed.

(** With sorted cues that do not overlap, a position that no cue contains
    splits the array: the search returns the cue before the split (or 0). *)
Lemma findCueIndex_gap_split (fuel : nat) (cues : list Cue) (positionMs : Z) :
  cues <> [] ->
  sorted_by_start cues -> non_overlapping cues ->
  Z.of_nat (length cues) <= MAX_CUES -> (length cues < fuel)%nat ->
  (forall c, In c cues -> ~ contains c positionMs) ->
  exists k : Z,
    findCueIndex fuel (Some cues) positionMs = Returns (Z.max 0 (k - 1))
    /\ 0 <= k <= Z.of_nat (length cues)
    /\ (forall i c, (Z.of_nat i < k) -> nth_error cues i = Some c ->
                    endMs c < positionMs)
    /\ (forall i c, (k <= Z.of_nat i) -> nth_error cues i = Some c ->
                    positionMs < startMs c).
Proof.
  intros Hne Hsorted Hapart Hmax Hfuel Hnone.
  rewrite findCueIndex_nonempty by assumption.
  pose proof (nonempty_length Hne) as Hpos.
  destruct (@findCueIndex_loop_gap cues positionMs Hmax Hsorted Hapart Hnone
              fuel 0 (Z.of_nat (length cues) - 1) 0)
    as [k [Hres [Hk [Hbelow Habove]]]]; try lia.
  - intros i c Hi Hc. apply get_Some_range in Hc. lia.
  - exists k. split; [assumption|]. split; [assumption|]. split.
    + intros i c Hi Hc. apply (Hbelow (Z.of_nat i)); [lia|].
      now rewrite get_nth_error.
    + intros i c Hi Hc. apply (Habove (Z.of_nat i)); [lia|].
      now rewrite get_nth_error.
Qed.

(** C9: on an empty cue sequence the locator returns index 0, whatever the
    position (and whatever the fuel: the loop is not entered). *)
Theorem findCueIndex_empty :
  forall (fuel : nat) (positionMs : Z),
    findCueIndex fuel (Some []) positionMs = Returns 0.
Proof.
  reflexivity.
Qed.

(** C10: on a cue list that is not empty, sorted or not, the locator
    returns an index of the list, for every position, negative or past
    every cue.  (The list has at most [MAX_CUES] cues, so that [lo + hi]
    is in the range of [>>]; the fuel exceeds the length.) *)
Theorem findCueIndex_in_bounds :
  forall (fuel : nat) (cues : list Cue) (positionMs : Z),
    cues <> [] ->
    Z.of_nat (length cues) <= MAX_CUES -> (length cues < fuel)%nat ->
    exists i : Z,
      findCueIndex fuel (Some cues) positionMs = Returns i
      /\ 0 <= i <= Z.of_nat (length cues) - 1
      /\ exists c, JsArray.get cues i = Some c.
Proof.
  intros fuel cues positionMs Hne Hmax Hfuel.
  rewrite findCueIndex_nonempty by assumption.
  pose proof (nonempty_length Hne) as Hpos.
  destruct (@findCueIndex_loop_in_bounds cues positionMs Hmax fuel
              0 (Z.of_nat (length cues) - 1) 0) as [i [Hi Hrange]]; try lia.
  exists i. split; [assumption|]. split; [assumption|].
  apply get_in_range. lia.
Qed.

(** C1: in a cue sequence sorted by [startMs] whose intervals do not
    overlap, a position that lies in the interval of a cue, ends included,
    is located at the index of that cue.  In particular, when cue [A] is
    followed by cue [B] and [A.endMs = B.startMs - 1], the position
    [A.endMs] is located at [A], not at [B]. *)
Theorem findCueIndex_finds_containing_cue :
  forall (fuel : nat) (cues : list Cue),
    sorted_by_start cues -> non_overlapping cues ->
    Z.of_nat (length cues) <= MAX_CUES -> (length cues < fuel)%nat ->
    (forall (positionMs : Z) (i : nat) (c : Cue),
        nth_error cues i = Some c -> contains c positionMs ->
        findCueIndex fuel (Some cues) positionMs = Returns (Z.of_nat i))
    /\
    (forall (i : nat) (A B : Cue),
        nth_error cues i = Some A -> nth_error cues (S i) = Some B ->
        is_interval A -> endMs A = startMs B - 1 ->
        findCueIndex fuel (Some cues) (endMs A) = Returns (Z.of_nat i)
        /\ findCueIndex fuel (Some cues) (endMs A) <> Returns (Z.of_nat (S i))).
Proof.
  intros fuel cues Hsorted Hapart Hmax Hfuel.
  assert (Hgen : forall (positionMs : Z) (i : nat) (c : Cue),
             nth_error cues i = Some c -> contains c positionMs ->
             findCueIndex fuel (Some cues) positionMs = Returns (Z.of_nat i)).
  { intros positionMs i c Hi Hc.
    assert (Hlt : (i < length cues)%nat) by (apply nth_error_Some; congruence).
    rewrite findCueIndex_nonempty by (destruct cues; [simpl in Hlt; lia | congruence]).
    apply (@findCueIndex_loop_finds cues positionMs Hmax Hsorted Hapart
             (Z.of_nat i) c); try lia; try assumption.
    now rewrite get_nth_error. }
  split; [exact Hgen|].
  intros i A B HA HB Hint Hadj.
  assert (HrA : findCueIndex fuel (Some cues) (endMs A) = Returns (Z.of_nat i)).
  { apply (Hgen (endMs A) i A HA). unfold contains, is_interval in *. lia. }
  split; [assumption|].
  rewrite HrA. intros Heq. injection Heq as Heq. lia.
Qed.

(** C2: in a cue sequence that is not empty, sorted by [startMs], of
    intervals that do not overlap, a position that no cue contains is
    located at the last cue that ended before it, an index of the array,
    and at 0 when no cue ended before it.  In particular a position past
    the end of the last cue is located at the last index, and a position
    before the start of the first cue at 0. *)
Theorem findCueIndex_gap_returns_last_ended :
  forall (fuel : nat) (cues : list Cue) (positionMs : Z),
    cues <> [] ->
    Forall is_interval cues -> sorted_by_start cues -> non_overlapping cues ->
    Z.of_nat (length cues) <= MAX_CUES -> (length cues < fuel)%nat ->
    (forall c, In c cues -> ~ contains c positionMs) ->
    (forall (i : nat) (c : Cue),
        nth_error cues i = Some c -> endMs c < positionMs ->
        (forall j c', (i < j)%nat -> nth_error cues j = Some c' ->
                      ~ endMs c' < positionMs) ->
        findCueIndex fuel (Some cues) positionMs = Returns (Z.of_nat i))
    /\ ((forall c, In c cues -> ~ endMs c < positionMs) ->
        findCueIndex fuel (Some cues) positionMs = Returns 0)
    /\ (forall c, nth_error cues (length cues - 1) = Some c ->
                  endMs c < positionMs ->
        findCueIndex fuel (Some cues) positionMs
          = Returns (Z.of_nat (length cues) - 1))
    /\ (forall c, nth_error cues 0 = Some c -> positionMs < startMs c ->
        findCueIndex fuel (Some cues) positionMs = Returns 0).
Proof.
  intros fuel cues positionMs Hne Hwf Hsorted Hapart Hmax Hfuel Hnone.
  destruct (@findCueIndex_gap_split fuel cues positionMs
              Hne Hsorted Hapart Hmax Hfuel Hnone)
    as [k [Hres [Hk [Hbelow Habove]]]].
  rewrite Forall_forall in Hwf.
  assert (Hlast : forall (i : nat) (c : Cue),
             nth_error cues i = Some c -> endMs c < positionMs ->
             (forall j c', (i < j)%nat -> nth_error cues j = Some c' ->
                           ~ endMs c' < positionMs) ->
             findCueIndex fuel (Some cues) positionMs = Returns (Z.of_nat i)).
  { intros i c Hi Hended Hlater. rewrite Hres. f_equal.
    assert (Z.of_nat i < k).
    { destruct (Z_lt_le_dec (Z.of_nat i) k) as [?|Hge]; [assumption|].
      pose proof (Habove i c Hge Hi).
      pose proof (Hwf c (nth_error_In _ _ Hi)). unfold is_interval in *. lia. }
    destruct (Z_lt_le_dec (Z.of_nat i) (k - 1)) as [Hlt|?]; [|lia].
    exfalso.
    destruct (nth_error cues (Z.to_nat (k - 1))) as [c'|] eqn:Hc'.
    - apply (Hlater (Z.to_nat (k - 1)) c'); [lia | assumption |].
      apply (Hbelow (Z.to_nat (k - 1))); [lia | assumption].
    - apply nth_error_None in Hc'. lia. }
  assert (Hzero : (forall c, In c cues -> ~ endMs c < positionMs) ->
                  findCueIndex fuel (Some cues) positionMs = Returns 0).
  { intros Hnot. rewrite Hres. f_equal.
    destruct (Z_lt_le_dec 0 k) as [Hk0|?]; [|lia].
    exfalso. destruct cues as [|c0 rest]; [congruence|].
    apply (Hnot c0); [now left|].
    apply (Hbelow O); [lia | reflexivity]. }
  split; [exact Hlast|]. split; [exact Hzero|]. split.
  - intros c Hc Hended.
    pose proof (nonempty_length Hne).
    replace (Z.of_nat (length cues) - 1) with (Z.of_nat (length cues - 1)) by lia.
    apply (Hlast _ c Hc Hended).
    intros j c' Hj Hc'.
    assert (j < length cues)%nat by (apply nth_error_Some; congruence). lia.
  - intros c Hc Hbefore. apply Hzero.
    intros c' Hin Hended.
    destruct (In_nth_error _ _ Hin) as [j Hj].
    pose proof (Hwf c' Hin) as Hint. unfold is_interval in Hint.
    destruct j as [|j].
    + rewrite Hj in Hc. injection Hc as <-. lia.
    + pose proof (StronglySorted_nth Hsorted (i := O) (j := S j)
                    ltac:(lia) Hc Hj) as Hle.
      simpl in Hle. lia.
Qed.

(** ** The properties on the examples of the specification *)

Lemma three_cues_sorted : sorted_by_start three_cues.
Proof.
  unfold sorted_by_start, three_cues.
  repeat (constructor; try (simpl; lia)).
Defined.

Lemma three_cues_apart : non_overlapping three_cues.
Proof.
  unfold non_overlapping, three_cues.
  repeat (constructor; try (simpl; lia)).
Defined.

Lemma three_cues_bounded : Z.of_nat (length three_cues) <= MAX_CUES.
Proof. unfold MAX_CUES. simpl. lia. Defined.

(** [locate(cues, 1500)] is 1, and the end of the first cue, one
    millisecond before the start of the second, is located at the first. *)
Lemma findCueIndex_finds_containing_cue_witness :
  findCueIndex 4 (Some three_cues) 1500 = Returns 1
  /\ findCueIndex 4 (Some three_cues) 999 = Returns 0.
Proof.
  destruct (findCueIndex_finds_containing_cue (fuel := 4)
              three_cues_sorted three_cues_apart three_cues_bounded
              ltac:(simpl; lia)) as [Hin Hend].
  split.
  - apply (Hin 1500 1%nat (mkCue 1 1000 1999) eq_refl).
    unfold contains. simpl. lia.
  - apply (Hend 0%nat (mkCue 0 0 999) (mkCue 1 1000 1999) eq_refl eq_refl).
    + unfold is_interval. simpl. lia.
    + reflexivity.
Defined.

(** A position in the gap between the first and the second cue is
    located at the first. *)
Lemma findCueIndex_gap_returns_last_ended_witness :
  findCueIndex 4 (Some gapped_cues) 1200 = Returns 0.
Proof.
  assert (Hgap : forall c, In c gapped_cues -> ~ contains c 1200).
  { intros c [<-|[<-|[<-|[]]]]; unfold contains; simpl; lia. }
  assert (Hwf : Forall is_interval gapped_cues).
  { repeat constructor; unfold is_interval; simpl; lia. }
  assert (Hs : sorted_by_start gapped_cues).
  { repeat (constructor; try (simpl; lia)). }
  assert (Ha : non_overlapping gapped_cues).
  { repeat (constructor; try (simpl; lia)). }
  assert (Hb : Z.of_nat (length gapped_cues) <= MAX_CUES).
  { unfold MAX_CUES. simpl. lia. }
  destruct (@findCueIndex_gap_returns_last_ended 4 gapped_cues 1200
              ltac:(discriminate) Hwf Hs Ha Hb ltac:(simpl; lia) Hgap)
    as [Hlast _].
  apply (Hlast 0%nat (mkCue 0 0 999) eq_refl).
  - simpl. lia.
  - intros [|[|[|j]]] c' Hj Hc'; try lia; simpl in Hc'.
    + injection Hc' as <-. simpl. lia.
    + injection Hc' as <-. simpl. lia.
    + destruct j; discriminate.
Defined.

(** A negative position on the three cues. *)
Lemma findCueIndex_in_bounds_witness :
  exists i : Z,
    findCueIndex 4 (Some three_cues) (-5) = Returns i
    /\ 0 <= i <= Z.of_nat (length three_cues) - 1
    /\ exists c, JsArray.get three_cues i = Some c.
Proof.
  apply findCueIndex_in_bounds.
  - discriminate.
  - exact three_cues_bounded.
  - simpl. lia.
Defined.

(** ["00:00:00,5"]: a fraction of one digit is five hundred
    milliseconds. *)
Lemma timeToMs_formula_witness :
  timeToMs (Some (lit "00:00:00,5")) =
    ((decimal (lit "00") * 60 + decimal (lit "00")) * 60 + decimal (lit "00"))
    * 1000 + decimal (lit "5") * 10 ^ Z.of_nat (3 - length (lit "5")).
Proof.
  apply (proj1 timeToMs_formula (Some (lit "00:00:00,5"))
               (lit "00") (lit "00") (lit "00") 44 (lit "5") []).
  - unfold begins_with_timestamp, all_digits.
    repeat split; try reflexivity; try (simpl; lia); repeat constructor.
  - vm_compute. discriminate.
Defined.

(** A timestamp with blanks around it. *)
Lemma normalizeTimeString_idempotent_no_whitespace_witness :
  normalizeTimeString
    (Some (normalizeTimeString (Some (lit " 00:01:02,500 "))))
    = normalizeTimeString (Some (lit " 00:01:02,500 "))
  /\ Forall (fun c => isWhiteSpace c = false /\ isWeirdSpace c = false)
            (normalizeTimeString (Some (lit " 00:01:02,500 "))).
Proof.
  apply normalizeTimeString_idempotent_no_whitespace.
  repeat constructor.
Defined.

(** The block without a timing line is not in the result. *)
Lemma parseSrt_total_skips_malformed_blocks_witness :
  parseSrt (Some document_with_untimed_block) =
    JsArray.mapi with_index
      (JsArray.sort byStart (collectCues ([block_hello] ++ [block_world])))
  /\ (length (parseSrt (Some document_with_untimed_block)) <= 1 + 1)%nat.
Proof.
  destruct parseSrt_total_skips_malformed_blocks as (_ & _ & _ & H).
  apply (H document_with_untimed_block [block_hello] [block_world]
           block_untimed).
  - discriminate.
  - reflexivity.
  - left. unfold has_no_timing_line. repeat constructor.
Defined.

(** A document of one block that ends with its timing line. *)
Lemma parseSrt_keeps_cue_without_text_witness :
  exists c : Cue,
    In c (parseSrt (Some block_without_text))
    /\ startMs c = 1000 /\ endMs c = 2000 /\ text c = [].
Proof.
  apply (@parseSrt_keeps_cue_without_text block_without_text
           block_without_text timing_without_text).
  - discriminate.
  - left. reflexivity.
  - reflexivity.
  - reflexivity.
Defined.

(** The indented block: the second caption line keeps its two spaces. *)
Lemma parseBlock_text_keeps_inner_indent_witness :
  linesOf indented_block = map trimEnd (split LF indented_block)
  /\ exists cueText : jsstring,
       parseBlock ([], 0) indented_block =
         ([] ++ [ {| index := 0;
                     startMs := Timing.startMs timing_indented;
                     endMs := Timing.endMs timing_indented;
                     text := cueText |} ], 0 + 1)
       /\ cueText =
            match captionLinesOf indented_block with
            | [] => []
            | first :: others =>
                trimStart first ++ flat_map (fun l => LF ++ l) others
            end.
Proof.
  apply parseBlock_text_keeps_inner_indent. reflexivity.
Defined.

(** The locator on the three cues of the specification. *)
Example findCueIndex_three_cues :
  findCueIndex 4 (Some three_cues) 1500 = Returns 1
  /\ findCueIndex 4 (Some three_cues) 50000 = Returns 2
  /\ findCueIndex 4 (Some []) 0 = Returns 0.
Proof. repeat split; reflexivity. Qed.

(** Arabic-Indic digits, and a timestamp wrapped in invisible marks and a
    no-break space. *)
Example normalizeTimeString_samples :
  normalizeTimeString
    (Some [0x0660; 0x0661; 0x0662; 0x0663; 0x0664;
           0x0665; 0x0666; 0x0667; 0x0668; 0x0669])
    = lit "0123456789"
  /\ normalizeTimeString
       (Some ([0x200F; 0x202B] ++ lit "00:01:02,500" ++ [0x00A0; 0x202C]))
     = lit "00:01:02,500".
Proof. split; reflexivity. Qed.

(** The two-block document of the specification, and a timing line with
    the dash arrow. *)
Example parseSrt_samples :
  map cue_body
      (parseSrt (Some (lit "1" ++ LF ++ lit "00:00:00,000 --> 00:00:02,000"
                       ++ LF ++ lit "Hello" ++ LF ++ LF
                       ++ lit "2" ++ LF ++ lit "00:00:02,000 --> 00:00:04,000"
                       ++ LF ++ lit "World")))
    = [(0, 2000, lit "Hello"); (2000, 4000, lit "World")]
  /\ map cue_body
        (parseSrt (Some (lit "00:00:00,000 " ++ [0x2014; 62]
                         ++ lit " 00:00:02,000" ++ LF ++ lit "Hello")))
     = [(0, 2000, lit "Hello")].
Proof. split; reflexivity. Qed.

(* ================================================================== *)
(** * Part III: further properties of the code *)
(* ================================================================== *)

From Stdlib Require Import Permutation.

(** ** What a successful match tells *)

Ltac list_assoc :=
  repeat (rewrite <- app_assoc; cbn [app]); cbn [app]; reflexivity.

Lemma quant_inv (R : Type) (p : Z -> bool) (k : jsstring -> option R)
      (x : R) (s : jsstring) :
  forall (min : nat) (max : option nat),
    Regex.quant p min max s k = Some x ->
    exists h rest,
      s = h ++ rest /\ Forall (fun c => p c = true) h
      /\ (min <= length h)%nat /\ fits max (length h)
      /\ k rest = Some x.
Proof.
  induction s as [|c s IH]; intros min max H.
  - simpl in H. destruct min; [|discriminate].
    exists [], []. repeat split; auto.
    destruct max; simpl; [lia | exact I].
  - cbn [Regex.quant] in H.
    assert (Hstop : match min with O => k (c :: s) | S _ => None end = Some x ->
                    exists h rest,
                      c :: s = h ++ rest /\ Forall (fun c => p c = true) h
                      /\ (min <= length h)%nat /\ fits max (length h)
                      /\ k rest = Some x).
    { intros Hs. destruct min; [|discriminate].
      exists [], (c :: s). repeat split; auto.
      destruct max; simpl; [lia | exact I]. }
    destruct (Regex.may_take max && p c) eqn:E; [|now apply Hstop].
    apply andb_true_iff in E. destruct E as [Hmay Hp].
    destruct (Regex.quant p (pred min) (option_map pred max) s k) as [r|] eqn:Hq;
      [|now apply Hstop].
    injection H as ->.
    destruct (IH _ _ Hq) as [h [rest [-> [Hh [Hmin [Hfit Hk]]]]]].
    exists (c :: h), rest. repeat split; auto.
    + simpl. lia.
    + destruct max as [[|m]|]; simpl in *; [discriminate | lia | exact I].
Qed.

Lemma exec_inv (r : Regex.t) (s : jsstring) (m : Regex.result) :
  Regex.exec r s = Some m ->
  exists pre s', s = pre ++ s' /\ Regex.match_at r s' = Some m.
Proof.
  induction s as [|c s IH]; cbn [Regex.exec].
  - destruct (Regex.match_at r []) eqn:E; [|discriminate].
    intros H. injection H as ->. now exists [], [].
  - destruct (Regex.match_at r (c :: s)) eqn:E.
    + intros H. injection H as ->. now exists [], (c :: s).
    + intros H. destruct (IH H) as [pre [s' [-> Hm]]].
      now exists (c :: pre), s'.
Qed.

Lemma exec_at_start (r : Regex.t) (s : jsstring) (m : Regex.result) :
  Regex.match_at r s = Some m -> Regex.exec r s = Some m.
Proof.
  intros H. destruct s; cbn [Regex.exec]; now rewrite H.
Qed.

(** The timestamp pattern without captures, in front of any rest of a
    pattern: what it takes is a timestamp. *)
Lemma run_STAMP_inv (R : Type) (s : jsstring) (caps : list jsstring)
      (k : jsstring -> list jsstring -> option R) (x : R) :
  Regex.run STAMP_RE s caps k = Some x ->
  exists hh mm ss sep frac rest,
    s = stamp hh mm ss sep frac ++ rest
    /\ stamp_fields hh mm ss sep frac
    /\ k rest caps = Some x.
Proof.
  unfold STAMP_RE. cbn [Regex.run Regex.chr]. intros H.
  apply quant_inv in H. destruct H as [hh [r1 [-> [Dh [Hh [_ H]]]]]].
  destruct r1 as [|c1 r1]; [discriminate|].
  destruct (Z.eqb_spec 58 c1) as [<-|]; [|discriminate].
  apply quant_inv in H. destruct H as [mm [r2 [-> [Dm [Hm [Fm H]]]]]].
  destruct r2 as [|c2 r2]; [discriminate|].
  destruct (Z.eqb_spec 58 c2) as [<-|]; [|discriminate].
  apply quant_inv in H. destruct H as [ss [r3 [-> [Ds [Hs [Fs H]]]]]].
  destruct r3 as [|sep r3]; [discriminate|].
  destruct (dot_or_comma sep) eqn:Hsep; [|discriminate].
  apply quant_inv in H. destruct H as [frac [rest [-> [Df [Hf [Ff H]]]]]].
  exists hh, mm, ss, sep, frac, rest.
  split; [|split; [|exact H]].
  - unfold stamp. list_assoc.
  - unfold stamp_fields, all_digits. simpl in Fm, Fs, Ff.
    repeat split; try assumption; try lia.
    unfold dot_or_comma in Hsep. lia.
Qed.

Lemma run_STAMP_takes (R : Type) (hh mm ss : jsstring) (sep : Z)
      (frac rest : jsstring) (caps : list jsstring)
      (k : jsstring -> list jsstring -> option R) (x : R) :
  stamp_fields hh mm ss sep frac ->
  (length frac = 3%nat
   \/ match rest with [] => True | c :: _ => isDigit c = false end) ->
  k rest caps = Some x ->
  Regex.run STAMP_RE (stamp hh mm ss sep frac ++ rest) caps k = Some x.
Proof.
  intros (Hh & Dh & Hm & Dm & Hs & Ds & Hsep & Hf & Df) Hstop Hk.
  unfold STAMP_RE, stamp. cbn [Regex.run Regex.chr].
  replace ((hh ++ 58 :: mm ++ 58 :: ss ++ sep :: frac) ++ rest)
    with (hh ++ 58 :: mm ++ 58 :: ss ++ sep :: frac ++ rest) by list_assoc.
  apply quant_takes_run; try assumption; [|exact I|right; reflexivity].
  change (58 =? 58) with true. cbv iota.
  apply quant_takes_run; try assumption;
    [|lia|simpl; lia|left; now rewrite Hm].
  change (58 =? 58) with true. cbv iota.
  apply quant_takes_run; try assumption;
    [|lia|simpl; lia|left; now rewrite Hs].
  assert (Hdc : dot_or_comma sep = true)
    by (unfold dot_or_comma; destruct Hsep; subst sep; reflexivity).
  rewrite Hdc.
  apply quant_takes_run; try assumption; [lia|simpl; lia|].
  destruct Hstop as [->|Hstop]; [left; reflexivity | right; exact Hstop].
Qed.

(** What the pattern of [timeToMs] matches is a timestamp at the start of
    the text, and its captures are the four fields. *)
Lemma match_at_TIME_RE_inv (t : jsstring) (m : Regex.result) :
  Regex.match_at TIME_RE t = Some m ->
  exists hh mm ss sep frac,
    t = stamp hh mm ss sep frac ++ Regex.rest m
    /\ stamp_fields hh mm ss sep frac
    /\ Regex.groups m = [hh; mm; ss; frac].
Proof.
  unfold Regex.match_at, TIME_RE. cbn [Regex.run Regex.chr]. intros H.
  apply quant_inv in H. destruct H as [hh [r1 [-> [Dh [Hh [_ H]]]]]].
  destruct r1 as [|c1 r1]; [discriminate|].
  destruct (Z.eqb_spec 58 c1) as [<-|]; [|discriminate].
  apply quant_inv in H. destruct H as [mm [r2 [-> [Dm [Hm [Fm H]]]]]].
  destruct r2 as [|c2 r2]; [discriminate|].
  destruct (Z.eqb_spec 58 c2) as [<-|]; [|discriminate].
  apply quant_inv in H. destruct H as [ss [r3 [-> [Ds [Hs [Fs H]]]]]].
  destruct r3 as [|sep r3]; [discriminate|].
  destruct (dot_or_comma sep) eqn:Hsep; [|discriminate].
  apply quant_inv in H. destruct H as [frac [rest [-> [Df [Hf [Ff H]]]]]].
  injection H as <-. cbn [Regex.rest Regex.groups].
  rewrite !consumed_app.
  exists hh, mm, ss, sep, frac.
  split; [|split; [|reflexivity]].
  - unfold stamp. list_assoc.
  - unfold stamp_fields, all_digits. simpl in Fm, Fs, Ff.
    repeat split; try assumption; try lia.
    unfold dot_or_comma in Hsep. lia.
Qed.

Lemma decimal_nonneg (s : jsstring) : all_digits s -> 0 <= decimal s.
Proof.
  induction 1 as [|d s Hd _ IH]; cbn [decimal]; [lia|].
  assert (0 <= d - 48) by (unfold isDigit, in_range in Hd; lia).
  assert (0 <= 10 ^ Z.of_nat (length s)) by (apply Z.pow_nonneg; lia).
  nia.
Qed.

Lemma stamp_ms_nonneg (hh mm ss : jsstring) (sep : Z) (frac : jsstring) :
  stamp_fields hh mm ss sep frac -> 0 <= stamp_ms hh mm ss frac.
Proof.
  intros (_ & Dh & _ & Dm & _ & Ds & _ & _ & Df). unfold stamp_ms.
  pose proof (decimal_nonneg Dh). pose proof (decimal_nonneg Dm).
  pose proof (decimal_nonneg Ds). pose proof (decimal_nonneg Df).
  assert (0 <= 10 ^ Z.of_nat (3 - length frac)) by (apply Z.pow_nonneg; lia).
  nia.
Qed.

(** [timeToMs] on its two paths: no match and 0, or a match and the
    milliseconds of the fields. *)
Lemma timeToMs_cases (raw : option jsstring) :
  (Regex.match_at TIME_RE (normalizeTimeString raw) = None
   /\ timeToMs raw = 0)
  \/ exists hh mm ss sep frac tail,
       normalizeTimeString raw = stamp hh mm ss sep frac ++ tail
       /\ stamp_fields hh mm ss sep frac
       /\ timeToMs raw = stamp_ms hh mm ss frac.
Proof.
  unfold timeToMs.
  destruct (Regex.match_at TIME_RE (normalizeTimeString raw)) as [m|] eqn:E;
    [right | left; now split].
  destruct (match_at_TIME_RE_inv _ E) as (hh & mm & ss & sep & frac & Ht & Hf & Hg).
  exists hh, mm, ss, sep, frac, (Regex.rest m).
  split; [exact Ht|]. split; [exact Hf|].
  destruct m as [w g r]. cbn [Regex.groups] in Hg. subst g.
  rewrite !NumberOfDigits_decimal, padEnd_zeros, decimal_app, decimal_zeros.
  rewrite repeat_length. unfold stamp_ms. ring.
Qed.

(** X1: [timeToMs] never returns a negative number, whatever the text. *)
Theorem timeToMs_nonneg :
  forall raw : option jsstring, 0 <= timeToMs raw.
Proof.
  intros raw.
  destruct (timeToMs_cases raw) as [[_ ->]|(hh & mm & ss & sep & frac & tail & _ & Hf & ->)].
  - lia.
  - eapply stamp_ms_nonneg; eassumption.
Qed.

(** X2: [timeToMs] returns something else than 0 only when the normalized
    text begins with a timestamp, and then, the timestamp standing for at
    most [MAX_SAFE_INTEGER] milliseconds, it returns the milliseconds of
    its fields; so [null], the empty text and a text that begins with no
    digit give 0. *)
Theorem timeToMs_zero_unless_timestamp :
  (forall raw : option jsstring,
      timeToMs raw <> 0 ->
      exists hh mm ss sep frac tail,
        normalizeTimeString raw = stamp hh mm ss sep frac ++ tail
        /\ stamp_fields hh mm ss sep frac
        /\ (stamp_ms hh mm ss frac <= MAX_SAFE_INTEGER ->
            timeToMs raw = stamp_ms hh mm ss frac))
  /\ timeToMs None = 0
  /\ (forall raw c tail,
         normalizeTimeString raw = c :: tail -> isDigit c = false ->
         timeToMs raw = 0).
Proof.
  split; [|split; [reflexivity|]].
  - intros raw Hne.
    destruct (timeToMs_cases raw)
      as [[_ H0]|(hh & mm & ss & sep & frac & tail & Ht & Hf & Hv)];
      [congruence|].
    exists hh, mm, ss, sep, frac, tail. auto.
  - intros raw c tail Hn Hc.
    destruct (timeToMs_cases raw)
      as [[_ H0]|(hh & mm & ss & sep & frac & t' & Ht & Hf & _)];
      [exact H0|].
    exfalso. destruct Hf as (Hh & Dh & _).
    rewrite Hn in Ht. unfold stamp in Ht.
    destruct hh as [|h hh]; [simpl in Hh; lia|].
    simpl in Ht. injection Ht as -> _.
    inversion Dh; subst. congruence.
Qed.

(** ** Timing lines *)

Lemma run_str_inv (R : Type) (cs : list Z) :
  forall (c : Z) (s : jsstring) (caps : list jsstring)
         (k : jsstring -> list jsstring -> option R) (x : R),
    Regex.run (Regex.str c cs) s caps k = Some x ->
    exists rest, s = (c :: cs) ++ rest /\ k rest caps = Some x.
Proof.
  induction cs as [|c' cs IH]; intros c s caps k x H;
    cbn [Regex.str Regex.run Regex.chr] in H;
    (destruct s as [|u s]; [discriminate|]);
    (destruct (Z.eqb_spec c u) as [<-|]; [|discriminate]).
  - now exists s.
  - destruct (IH _ _ _ _ _ H) as [rest [-> Hk]]. now exists rest.
Qed.

Lemma run_str_takes (R : Type) (cs : list Z) :
  forall (c : Z) (rest : jsstring) (caps : list jsstring)
         (k : jsstring -> list jsstring -> option R),
    Regex.run (Regex.str c cs) ((c :: cs) ++ rest) caps k = k rest caps.
Proof.
  induction cs as [|c' cs IH]; intros c rest caps k;
    cbn [Regex.str Regex.run Regex.chr app]; rewrite Z.eqb_refl.
  - reflexivity.
  - apply (IH c').
Qed.

Lemma run_str_other (R : Type) (c : Z) (cs : list Z) (u : Z) (s : jsstring)
      (caps : list jsstring) (k : jsstring -> list jsstring -> option R) :
  c <> u -> Regex.run (Regex.str c cs) (u :: s) caps k = None.
Proof.
  intros Hne. apply Z.eqb_neq in Hne.
  destruct cs; cbn [Regex.str Regex.run Regex.chr]; now rewrite Hne.
Qed.

Lemma run_ARROW_inv (R : Type) (s : jsstring) (caps : list jsstring)
      (k : jsstring -> list jsstring -> option R) (x : R) :
  Regex.run ARROW_RE s caps k = Some x ->
  exists a rest, is_arrow a /\ s = a ++ rest /\ k rest caps = Some x.
Proof.
  unfold ARROW_RE. cbn [Regex.run]. intros H.
  destruct (Regex.run (Regex.str 45 [45; 62]) s caps k) eqn:E1.
  - injection H as ->. apply run_str_inv in E1. destruct E1 as [rest [-> Hk]].
    exists [45; 45; 62], rest. split; [now left | now split].
  - destruct (Regex.run (Regex.str 8212 [62]) s caps k) eqn:E2.
    + injection H as ->. apply run_str_inv in E2.
      destruct E2 as [rest [-> Hk]].
      exists [8212; 62], rest. split; [right; now left | now split].
    + apply run_str_inv in H. destruct H as [rest [-> Hk]].
      exists [8211; 62], rest. split; [right; now right | now split].
Qed.

Lemma run_ARROW_takes (R : Type) (a rest : jsstring) (caps : list jsstring)
      (k : jsstring -> list jsstring -> option R) :
  is_arrow a -> Regex.run ARROW_RE (a ++ rest) caps k = k rest caps.
Proof.
  unfold ARROW_RE. cbn [Regex.run].
  intros [-> | [-> | ->]].
  - change (lit "-->") with [45; 45; 62]. rewrite run_str_takes.
    destruct (k rest caps) eqn:E; [reflexivity|].
    cbn [app]. now rewrite !run_str_other by lia.
  - cbn [app]. rewrite run_str_other by lia.
    change (8212 :: 62 :: rest) with ([8212; 62] ++ rest).
    rewrite run_str_takes.
    destruct (k rest caps) eqn:E; [reflexivity|].
    cbn [app]. now rewrite run_str_other by lia.
  - cbn [app]. rewrite !run_str_other by lia.
    change (8211 :: 62 :: rest) with ([8211; 62] ++ rest).
    apply run_str_takes.
Qed.

Lemma digit_not_rewritten (c : Z) : isDigit c = true -> is_rewritten c = false.
Proof. intros H. unclass. lia. Qed.

Lemma stamp_not_rewritten (hh mm ss : jsstring) (sep : Z) (frac : jsstring) :
  stamp_fields hh mm ss sep frac ->
  Forall (fun c => is_rewritten c = false) (stamp hh mm ss sep frac).
Proof.
  intros (_ & Dh & _ & Dm & _ & Ds & Hsep & _ & Df). unfold stamp.
  assert (Hd : forall s, all_digits s ->
                 Forall (fun c => is_rewritten c = false) s).
  { intros s. apply Forall_impl, digit_not_rewritten. }
  apply Forall_app; split; [auto|]. constructor; [reflexivity|].
  apply Forall_app; split; [auto|]. constructor; [reflexivity|].
  apply Forall_app; split; [auto|]. constructor; [|auto].
  destruct Hsep; subst sep; reflexivity.
Qed.

(** The time of a timestamp that stands alone. *)
Lemma timeToMs_stamp (hh mm ss : jsstring) (sep : Z) (frac : jsstring) :
  stamp_fields hh mm ss sep frac ->
  timeToMs (Some (stamp hh mm ss sep frac)) = stamp_ms hh mm ss frac.
Proof.
  intros Hf. pose proof (stamp_not_rewritten Hf) as Hclean.
  destruct Hf as (Hh & Dh & Hm & Dm & Hs & Ds & Hsep & Hfr & Df).
  unfold timeToMs. rewrite (normalizeTimeString_fixed Hclean).
  unfold stamp.
  replace (hh ++ 58 :: mm ++ 58 :: ss ++ sep :: frac)
    with (hh ++ 58 :: mm ++ 58 :: ss ++ sep :: frac ++ [])
    by now rewrite app_nil_r.
  rewrite match_at_TIME_RE; try assumption.
  - rewrite !NumberOfDigits_decimal, padEnd_zeros, decimal_app, decimal_zeros.
    rewrite repeat_length. unfold stamp_ms. ring.
  - unfold dot_or_comma. destruct Hsep; subst sep; reflexivity.
  - right. exact I.
Qed.

Lemma match_at_TIMING_LINE_inv (s : jsstring) (m : Regex.result) :
  Regex.match_at TIMING_LINE_RE s = Some m ->
  exists hh1 mm1 ss1 sep1 frac1 a hh2 mm2 ss2 sep2 frac2,
    stamp_fields hh1 mm1 ss1 sep1 frac1
    /\ is_arrow a
    /\ stamp_fields hh2 mm2 ss2 sep2 frac2
    /\ s = stamp hh1 mm1 ss1 sep1 frac1 ++ a
             ++ stamp hh2 mm2 ss2 sep2 frac2 ++ Regex.rest m
    /\ Regex.groups m = [stamp hh1 mm1 ss1 sep1 frac1;
                         stamp hh2 mm2 ss2 sep2 frac2].
Proof.
  unfold Regex.match_at, TIMING_LINE_RE. cbn [Regex.run]. intros H.
  apply run_STAMP_inv in H.
  destruct H as (hh1 & mm1 & ss1 & sep1 & frac1 & r1 & E1 & Hf1 & H).
  apply run_ARROW_inv in H. destruct H as (a & r2 & Ha & E2 & H).
  apply run_STAMP_inv in H.
  destruct H as (hh2 & mm2 & ss2 & sep2 & frac2 & post & E3 & Hf2 & H).
  subst s r1 r2. injection H as <-. cbn [Regex.rest Regex.groups].
  rewrite !consumed_app.
  exists hh1, mm1, ss1, sep1, frac1, a, hh2, mm2, ss2, sep2, frac2.
  split; [assumption|]. split; [assumption|]. split; [assumption|].
  split; reflexivity.
Qed.

Lemma match_at_TIMING_LINE_takes
      (hh1 mm1 ss1 : jsstring) (sep1 : Z) (frac1 a : jsstring)
      (hh2 mm2 ss2 : jsstring) (sep2 : Z) (frac2 tail : jsstring) :
  stamp_fields hh1 mm1 ss1 sep1 frac1 -> is_arrow a ->
  stamp_fields hh2 mm2 ss2 sep2 frac2 ->
  (length frac2 = 3%nat
   \/ match tail with [] => True | c :: _ => isDigit c = false end) ->
  exists w,
    Regex.match_at TIMING_LINE_RE
      (stamp hh1 mm1 ss1 sep1 frac1 ++ a
       ++ stamp hh2 mm2 ss2 sep2 frac2 ++ tail)
    = Some {| Regex.whole := w;
              Regex.groups := [stamp hh1 mm1 ss1 sep1 frac1;
                               stamp hh2 mm2 ss2 sep2 frac2];
              Regex.rest := tail |}.
Proof.
  intros Hf1 Ha Hf2 Hstop. eexists.
  unfold Regex.match_at, TIMING_LINE_RE. cbn [Regex.run].
  apply run_STAMP_takes; [assumption| |].
  { right. destruct Ha as [-> | [-> | ->]]; reflexivity. }
  rewrite run_ARROW_takes by assumption.
  apply run_STAMP_takes; [assumption|assumption|].
  rewrite !consumed_app. reflexivity.
Qed.

(** X3: a line whose normalized text begins with a timestamp, one of the
    three arrows and a second timestamp, each standing for at most
    [MAX_SAFE_INTEGER] milliseconds, is read as these two timestamps:
    the times are the milliseconds of their fields, whatever their order,
    and the raw texts are the two timestamps. *)
Theorem parseTimingLine_reads_timestamps :
  forall (rawLine : jsstring)
         (hh1 mm1 ss1 : jsstring) (sep1 : Z) (frac1 a : jsstring)
         (hh2 mm2 ss2 : jsstring) (sep2 : Z) (frac2 tail : jsstring),
    normalizeTimeString (Some rawLine)
      = stamp hh1 mm1 ss1 sep1 frac1 ++ a
        ++ stamp hh2 mm2 ss2 sep2 frac2 ++ tail ->
    stamp_fields hh1 mm1 ss1 sep1 frac1 -> is_arrow a ->
    stamp_fields hh2 mm2 ss2 sep2 frac2 ->
    (length frac2 = 3%nat
     \/ match tail with [] => True | c :: _ => isDigit c = false end) ->
    stamp_ms hh1 mm1 ss1 frac1 <= MAX_SAFE_INTEGER ->
    stamp_ms hh2 mm2 ss2 frac2 <= MAX_SAFE_INTEGER ->
    parseTimingLine (Some rawLine) =
      Some {| Timing.startMs := stamp_ms hh1 mm1 ss1 frac1;
              Timing.endMs := stamp_ms hh2 mm2 ss2 frac2;
              Timing.startRaw := stamp hh1 mm1 ss1 sep1 frac1;
              Timing.endRaw := stamp hh2 mm2 ss2 sep2 frac2;
              Timing.normalizedLine := normalizeTimeString (Some rawLine) |}.
Proof.
  intros rawLine hh1 mm1 ss1 sep1 frac1 a hh2 mm2 ss2 sep2 frac2 tail
         Hn Hf1 Ha Hf2 Hstop _ _.
  destruct (match_at_TIMING_LINE_takes tail Hf1 Ha Hf2 Hstop) as [w Hm].
  rewrite <- Hn in Hm. apply exec_at_start in Hm.
  unfold parseTimingLine.
  destruct rawLine as [|u rawLine].
  - exfalso. destruct Hf1 as (Hh & _). unfold stamp in Hn.
    destruct hh1; [simpl in Hh; lia | discriminate Hn].
  - rewrite Hm. now rewrite !timeToMs_stamp by assumption.
Qed.

(** What [parseTimingLine] returns, when it returns a timing. *)
Lemma parseTimingLine_inv (rawLine : option jsstring) (timing : Timing.t) :
  parseTimingLine rawLine = Some timing ->
  exists pre post a hh1 mm1 ss1 sep1 frac1 hh2 mm2 ss2 sep2 frac2,
    Timing.normalizedLine timing = normalizeTimeString rawLine
    /\ Timing.normalizedLine timing
       = pre ++ Timing.startRaw timing ++ a ++ Timing.endRaw timing ++ post
    /\ is_arrow a
    /\ stamp_fields hh1 mm1 ss1 sep1 frac1
    /\ Timing.startRaw timing = stamp hh1 mm1 ss1 sep1 frac1
    /\ Timing.startMs timing = stamp_ms hh1 mm1 ss1 frac1
    /\ stamp_fields hh2 mm2 ss2 sep2 frac2
    /\ Timing.endRaw timing = stamp hh2 mm2 ss2 sep2 frac2
    /\ Timing.endMs timing = stamp_ms hh2 mm2 ss2 frac2.
Proof.
  unfold parseTimingLine. destruct rawLine as [[|u raw]|]; try discriminate.
  cbv zeta.
  match goal with
  | |- context [Regex.exec ?r ?x] =>
      destruct (Regex.exec r x) as [m|] eqn:E; [|discriminate]
  end.
  intros H.
  destruct (exec_inv _ _ E) as (pre & s' & Hs & Hm).
  destruct (match_at_TIMING_LINE_inv _ Hm)
    as (hh1 & mm1 & ss1 & sep1 & frac1 & a & hh2 & mm2 & ss2 & sep2 & frac2
        & Hf1 & Ha & Hf2 & Hs' & Hg).
  destruct m as [w g post]. cbn [Regex.groups Regex.rest] in *. subst g.
  injection H as <-.
  cbn [Timing.normalizedLine Timing.startRaw Timing.endRaw
       Timing.startMs Timing.endMs].
  exists pre, post, a, hh1, mm1, ss1, sep1, frac1, hh2, mm2, ss2, sep2, frac2.
  split; [reflexivity|].
  split; [transitivity (pre ++ s'); [exact Hs | now rewrite Hs']|].
  split; [assumption|]. split; [assumption|]. split; [reflexivity|].
  split; [now apply timeToMs_stamp|].
  split; [assumption|]. split; [reflexivity|].
  now apply timeToMs_stamp.
Qed.

(** X4: a timing that [parseTimingLine] returns comes from the line: its
    normalized line holds the start text, an arrow and the end text one
    after the other, both texts are timestamps, each of the two times is
    the milliseconds of the fields of its text when these are at most
    [MAX_SAFE_INTEGER], and no time is negative. *)
Theorem parseTimingLine_result_is_of_line :
  forall (rawLine : option jsstring) (timing : Timing.t),
    parseTimingLine rawLine = Some timing ->
    (exists pre post a,
        is_arrow a
        /\ normalizeTimeString rawLine
           = pre ++ Timing.startRaw timing ++ a
             ++ Timing.endRaw timing ++ post)
    /\ (exists hh mm ss sep frac,
           stamp_fields hh mm ss sep frac
           /\ Timing.startRaw timing = stamp hh mm ss sep frac
           /\ (stamp_ms hh mm ss frac <= MAX_SAFE_INTEGER ->
               Timing.startMs timing = stamp_ms hh mm ss frac))
    /\ (exists hh mm ss sep frac,
           stamp_fields hh mm ss sep frac
           /\ Timing.endRaw timing = stamp hh mm ss sep frac
           /\ (stamp_ms hh mm ss frac <= MAX_SAFE_INTEGER ->
               Timing.endMs timing = stamp_ms hh mm ss frac))
    /\ 0 <= Timing.startMs timing /\ 0 <= Timing.endMs timing.
Proof.
  intros rawLine timing H.
  destruct (parseTimingLine_inv _ H)
    as (pre & post & a & hh1 & mm1 & ss1 & sep1 & frac1
        & hh2 & mm2 & ss2 & sep2 & frac2
        & Hn & Hline & Ha & Hf1 & Hr1 & Hm1 & Hf2 & Hr2 & Hm2).
  split; [exists pre, post, a; split; [assumption | now rewrite <- Hn]|].
  split; [exists hh1, mm1, ss1, sep1, frac1; auto|].
  split; [exists hh2, mm2, ss2, sep2, frac2; auto|].
  rewrite Hm1, Hm2.
  split; eapply stamp_ms_nonneg; eassumption.
Qed.

(** ** The cues of a document *)

Lemma parseBlock_bodies (cues : list Cue) (n : Z) (block : jsstring) :
  map cue_body (fst (parseBlock (cues, n) block))
    = map cue_body cues ++ bodiesOfBlock block.
Proof.
  unfold bodiesOfBlock.
  destruct (parseTimingLine
              (JsArray.get (linesOf block) (timeLineIdxOf (linesOf block))))
    as [timing|] eqn:E.
  - rewrite (parseBlock_push cues n _ E). cbn [fst].
    rewrite map_app. reflexivity.
  - rewrite app_nil_r. unfold parseBlock. rewrite E.
    now destruct (timeLineIdxOf (linesOf block) =? -1).
Qed.

Lemma fold_parseBlock_bodies (blocks : list jsstring) :
  forall st : list Cue * Z,
    map cue_body (fst (fold_left parseBlock blocks st))
      = map cue_body (fst st) ++ flat_map bodiesOfBlock blocks.
Proof.
  induction blocks as [|b blocks IH]; intros [cues n]; cbn [fold_left flat_map].
  - now rewrite app_nil_r.
  - rewrite IH. destruct (parseBlock (cues, n) b) as [cues' n'] eqn:E.
    pose proof (parseBlock_bodies cues n b) as H. rewrite E in H.
    cbn [fst] in *. rewrite H. now rewrite app_assoc.
Qed.

Lemma insert_Permutation (A : Type) (cmp : A -> A -> Z) (x : A) (l : list A) :
  Permutation (JsArray.insert cmp x l) (x :: l).
Proof.
  induction l as [|y l IH]; simpl; [reflexivity|].
  destruct (cmp x y >? 0); [|reflexivity].
  rewrite IH. apply perm_swap.
Qed.

Lemma sort_Permutation (A : Type) (cmp : A -> A -> Z) (l : list A) :
  Permutation (JsArray.sort cmp l) l.
Proof.
  induction l as [|x l IH]; simpl; [reflexivity|].
  rewrite insert_Permutation. now constructor.
Qed.

Lemma mapi_from_bodies (l : list Cue) :
  forall i0, map cue_body (JsArray.mapi_from with_index i0 l) = map cue_body l.
Proof.
  induction l as [|x l IH]; intros i0; simpl; [reflexivity|].
  now rewrite IH.
Qed.

Lemma blocksOf_empty : blocksOf [] = [].
Proof. reflexivity. Qed.

Lemma cuesInBlockOrder_bodies (srtText : jsstring) :
  map cue_body (cuesInBlockOrder (Some srtText))
    = flat_map bodiesOfBlock (blocksOf srtText).
Proof.
  destruct srtText as [|u s]; [reflexivity|].
  unfold cuesInBlockOrder, collectCues.
  now rewrite fold_parseBlock_bodies.
Qed.

Lemma parseSrt_bodies (srtText : jsstring) :
  Permutation (map cue_body (parseSrt (Some srtText)))
              (flat_map bodiesOfBlock (blocksOf srtText)).
Proof.
  rewrite parseSrt_cuesInBlockOrder. unfold JsArray.mapi.
  rewrite mapi_from_bodies, <- cuesInBlockOrder_bodies.
  apply Permutation_map, sort_Permutation.
Qed.

(** X5: the cues that [parseSrt] returns are those of the blocks whose
    timing line parses, one cue for each such block and no other: before
    the sort they stand in block order with the times of the timing line
    and the trimmed caption lines as text, and the sort only rearranges
    them.  So there are never more cues than blocks. *)
Theorem parseSrt_cues_are_those_of_the_blocks :
  forall srtText : jsstring,
    map cue_body (cuesInBlockOrder (Some srtText))
      = flat_map bodiesOfBlock (blocksOf srtText)
    /\ Permutation (map cue_body (parseSrt (Some srtText)))
                   (flat_map bodiesOfBlock (blocksOf srtText))
    /\ (length (parseSrt (Some srtText)) <= length (blocksOf srtText))%nat.
Proof.
  intros srtText. split; [apply cuesInBlockOrder_bodies|].
  split; [apply parseSrt_bodies|].
  rewrite <- (length_map cue_body), (Permutation_length (parseSrt_bodies srtText)).
  induction (blocksOf srtText) as [|b bs IH]; [simpl; lia|].
  cbn [flat_map]. rewrite length_app. unfold bodiesOfBlock at 1.
  destruct (parseTimingLine _); simpl; lia.
Qed.

Lemma parseSrt_In_block (srtText : option jsstring) (c : Cue) :
  In c (parseSrt srtText) ->
  exists text block timing,
    srtText = Some text /\ In block (blocksOf text)
    /\ parseTimingLine
         (JsArray.get (linesOf block) (timeLineIdxOf (linesOf block)))
       = Some timing
    /\ cue_body c = (Timing.startMs timing, Timing.endMs timing,
                     trim (join LF (captionLinesOf block))).
Proof.
  intros Hc. destruct srtText as [text|]; [|destruct Hc].
  assert (Hb : In (cue_body c) (flat_map bodiesOfBlock (blocksOf text))).
  { eapply Permutation_in; [apply parseSrt_bodies|]. now apply in_map. }
  apply in_flat_map in Hb. destruct Hb as [block [Hblock Hb]].
  unfold bodiesOfBlock in Hb.
  destruct (parseTimingLine _) as [timing|] eqn:E; [|destruct Hb].
  destruct Hb as [Hb|[]].
  exists text, block, timing. auto.
Qed.

(** X6: no cue of the result has a negative start or end, whatever the
    document. *)
Theorem parseSrt_times_nonneg :
  forall (srtText : option jsstring) (c : Cue),
    In c (parseSrt srtText) -> 0 <= startMs c /\ 0 <= endMs c.
Proof.
  intros srtText c Hc.
  destruct (parseSrt_In_block _ _ Hc) as (text & block & timing & _ & _ & Ht & Hb).
  destruct (parseTimingLine_inv _ Ht)
    as (pre & post & a & hh1 & mm1 & ss1 & sep1 & frac1
        & hh2 & mm2 & ss2 & sep2 & frac2
        & _ & _ & _ & Hf1 & _ & Hm1 & Hf2 & _ & Hm2).
  unfold cue_body in Hb. injection Hb as -> -> _.
  rewrite Hm1, Hm2. split; eapply stamp_ms_nonneg; eassumption.
Qed.

Lemma trimStart_snoc (a : jsstring) (c : Z) :
  isWhiteSpace c = false -> exists a', trimStart (a ++ [c]) = a' ++ [c].
Proof.
  intros Hc. induction a as [|x a IH]; simpl.
  - rewrite Hc. now exists [].
  - destruct (isWhiteSpace x); [exact IH|]. now exists (x :: a).
Qed.

Lemma trimEnd_cons_visible (c : Z) (r : jsstring) :
  isWhiteSpace c = false -> exists r', trimEnd (c :: r) = c :: r'.
Proof.
  intros Hc. unfold trimEnd. cbn [rev].
  destruct (@trimStart_snoc (rev r) c Hc) as [a' ->].
  rewrite rev_app_distr. cbn [rev app]. now exists (rev a').
Qed.

(** A trimmed text begins and ends with units that are not whitespace, and
    trimming it again changes nothing. *)
Lemma trim_ends (s : jsstring) :
  (forall u rest, trim s = u :: rest -> isWhiteSpace u = false)
  /\ (forall init u, trim s = init ++ [u] -> isWhiteSpace u = false)
  /\ trim (trim s) = trim s.
Proof.
  assert (Hy : trim s = []
               \/ exists c r', trim s = c :: r' /\ isWhiteSpace c = false
                                /\ ends_visibly (c :: r')).
  { unfold trim.
    destruct (trimStart_head s) as [E|[c [r [E Hc]]]]; rewrite E.
    - now left.
    - right. destruct (@trimEnd_cons_visible c r Hc) as [r' Hr].
      exists c, r'. split; [exact Hr|]. split; [exact Hc|].
      destruct (trimEnd_last (c :: r)) as [E0|Hv]; [congruence|].
      now rewrite Hr in Hv. }
  destruct Hy as [->|[c [r' [-> [Hc Hv]]]]].
  - repeat split; try discriminate.
    intros init u H. now destruct init.
  - split; [intros u rest H; now injection H as <- _|]. split.
    + intros init u H. destruct Hv as [i2 [c2 [E2 Hc2]]].
      rewrite H in E2. apply app_inj_tail in E2. destruct E2 as [_ ->].
      exact Hc2.
    + unfold trim. cbn [trimStart]. rewrite Hc.
      now apply trimEnd_ends_visibly.
Qed.

(** X7: the text of every cue of the result is trimmed: it does not begin
    and does not end with whitespace. *)
Theorem parseSrt_text_is_trimmed :
  forall (srtText : option jsstring) (c : Cue),
    In c (parseSrt srtText) ->
    trim (text c) = text c
    /\ (forall u rest, text c = u :: rest -> isWhiteSpace u = false)
    /\ (forall init u, text c = init ++ [u] -> isWhiteSpace u = false).
Proof.
  intros srtText c Hc.
  destruct (parseSrt_In_block _ _ Hc) as (t & block & timing & _ & _ & _ & Hb).
  unfold cue_body in Hb. injection Hb as _ _ ->.
  destruct (trim_ends (join LF (captionLinesOf block))) as (H1 & H2 & H3).
  auto.
Qed.

(** ** Byte order mark and line ends *)

Lemma match_at_CRLF (rest : jsstring) :
  Regex.match_at (Regex.str 13 [10]) (13 :: 10 :: rest)
    = Some {| Regex.whole := [13; 10]; Regex.groups := [];
              Regex.rest := rest |}.
Proof.
  unfold Regex.match_at.
  change (13 :: 10 :: rest) with ([13; 10] ++ rest) at 1.
  rewrite run_str_takes. f_equal. f_equal.
  apply (consumed_app [13; 10] rest).
Qed.

Lemma match_at_CRLF_none (s : jsstring) :
  (forall rest, s <> 13 :: 10 :: rest) ->
  Regex.match_at (Regex.str 13 [10]) s = None.
Proof.
  intros H. unfold Regex.match_at.
  destruct s as [|u s]; [reflexivity|].
  destruct (Z.eq_dec 13 u) as [<-|Hu]; [|now apply run_str_other].
  cbn [Regex.str Regex.run Regex.chr]. rewrite Z.eqb_refl.
  destruct s as [|v s]; [reflexivity|].
  destruct (Z.eqb_spec 10 v) as [<-|Hv]; [|reflexivity].
  now destruct (H s).
Qed.

Lemma replace_CRLF_withLineEnds (s : jsstring) :
  ~ In 13 s ->
  replace_with (Regex.str 13 [10]) LF (withLineEnds [13; 10] s) = s.
Proof.
  unfold replace_with, Regex.replace_all, withLineEnds.
  induction s as [|c s IH]; intros Hno; [reflexivity|].
  assert (Hs : ~ In 13 s) by (intros H; apply Hno; now right).
  assert (Hc : c <> 13) by (intros ->; apply Hno; now left).
  cbn [flat_map]. destruct (Z.eqb_spec c 10) as [->|Hc10].
  - cbn [app Regex.replace_from]. rewrite match_at_CRLF.
    cbn [Regex.whole length Regex.replace_from app LF].
    unfold LF. cbn [app]. f_equal. now apply IH.
  - cbn [app Regex.replace_from].
    rewrite match_at_CRLF_none by (intros rest E; injection E as E _; congruence).
    f_equal. now apply IH.
Qed.

Lemma withLineEnds_CR_head (s : jsstring) (rest : jsstring) :
  withLineEnds [13] s <> 10 :: rest.
Proof.
  destruct s as [|c s]; [discriminate|].
  unfold withLineEnds. cbn [flat_map].
  destruct (Z.eqb_spec c 10) as [->|Hc]; cbn [app]; intros E;
    injection E as E _; congruence.
Qed.

Lemma replace_CRLF_withCR (s : jsstring) :
  ~ In 13 s ->
  replace_with (Regex.str 13 [10]) LF (withLineEnds [13] s)
    = withLineEnds [13] s.
Proof.
  unfold replace_with, Regex.replace_all.
  induction s as [|c s IH]; intros Hno; [reflexivity|].
  assert (Hs : ~ In 13 s) by (intros H; apply Hno; now right).
  assert (Hc : c <> 13) by (intros ->; apply Hno; now left).
  change (withLineEnds [13] (c :: s))
    with ((if c =? 10 then [13] else [c]) ++ withLineEnds [13] s).
  destruct (c =? 10); cbn [app Regex.replace_from].
  - rewrite match_at_CRLF_none; [f_equal; now apply IH|].
    intros rest E. injection E as E.
    now apply (@withLineEnds_CR_head s rest).
  - rewrite match_at_CRLF_none; [f_equal; now apply IH|].
    intros rest E. injection E as E _. contradiction.
Qed.

Lemma replace_CRLF_none (s : jsstring) :
  ~ In 13 s -> replace_with (Regex.str 13 [10]) LF s = s.
Proof.
  unfold replace_with, Regex.replace_all.
  induction s as [|c s IH]; intros Hno; [reflexivity|].
  assert (Hs : ~ In 13 s) by (intros H; apply Hno; now right).
  assert (Hc : c <> 13) by (intros ->; apply Hno; now left).
  cbn [Regex.replace_from].
  rewrite match_at_CRLF_none; [f_equal; now apply IH|].
  intros rest E. injection E as E _. contradiction.
Qed.

Lemma replace_CR_withCR (s : jsstring) :
  ~ In 13 s -> replace_with (Regex.chr 13) LF (withLineEnds [13] s) = s.
Proof.
  unfold replace_with, Regex.chr. rewrite replace_all_Class.
  unfold subst_units, withLineEnds.
  induction s as [|c s IH]; intros Hno; [reflexivity|].
  assert (Hs : ~ In 13 s) by (intros H; apply Hno; now right).
  assert (Hc : c <> 13) by (intros ->; apply Hno; now left).
  cbn [flat_map]. rewrite flat_map_app, (IH Hs).
  destruct (Z.eqb_spec c 10) as [->|Hc10]; cbn [flat_map app].
  - reflexivity.
  - apply Z.eqb_neq in Hc. rewrite Z.eqb_sym in Hc. now rewrite Hc.
Qed.

Lemma replace_CR_none (s : jsstring) :
  ~ In 13 s -> replace_with (Regex.chr 13) LF s = s.
Proof.
  intros Hno. unfold replace_with, Regex.chr. rewrite replace_all_Class.
  apply subst_units_id. apply Forall_forall. intros c Hc.
  apply Z.eqb_neq. intros <-. contradiction.
Qed.

Lemma replace_at_start_BOM (s : jsstring) :
  Regex.replace_at_start (Regex.chr 65279) [] s
    = match s with
      | c :: rest => if c =? 65279 then rest else s
      | [] => []
      end.
Proof.
  unfold Regex.replace_at_start, Regex.chr. rewrite match_at_Class.
  destruct s as [|c rest]; [reflexivity|].
  rewrite Z.eqb_sym. now destruct (c =? 65279).
Qed.

Lemma replace_at_start_BOM_withLineEnds (eol : jsstring) (s : jsstring) :
  (exists rest, eol = 13 :: rest) ->
  Regex.replace_at_start (Regex.chr 65279) [] (withLineEnds eol s)
    = withLineEnds eol (Regex.replace_at_start (Regex.chr 65279) [] s).
Proof.
  intros [r ->]. rewrite !replace_at_start_BOM.
  destruct s as [|c s]; [reflexivity|].
  unfold withLineEnds at 1. cbn [flat_map].
  destruct (Z.eqb_spec c 10) as [->|Hc]; cbn [app].
  - reflexivity.
  - fold (withLineEnds (13 :: r) s).
    destruct (c =? 65279) eqn:E; [reflexivity|].
    unfold withLineEnds. cbn [flat_map]. apply Z.eqb_neq in Hc.
    now rewrite Hc.
Qed.

Lemma replace_at_start_BOM_no_CR (s : jsstring) :
  ~ In 13 s -> ~ In 13 (Regex.replace_at_start (Regex.chr 65279) [] s).
Proof.
  rewrite replace_at_start_BOM. destruct s as [|c rest]; [auto|].
  destruct (c =? 65279); [|auto].
  intros Hno H. apply Hno. now right.
Qed.

Lemma blocksOf_line_ends (s : jsstring) :
  ~ In 13 s ->
  blocksOf (withLineEnds [13; 10] s) = blocksOf s
  /\ blocksOf (withLineEnds [13] s) = blocksOf s.
Proof.
  intros Hno. unfold blocksOf.
  pose proof (@replace_at_start_BOM_no_CR s Hno) as Hno'.
  rewrite !replace_at_start_BOM_withLineEnds by (eexists; reflexivity).
  set (s0 := Regex.replace_at_start (Regex.chr 65279) [] s) in *.
  rewrite (@replace_CRLF_withLineEnds s0 Hno').
  rewrite (@replace_CRLF_withCR s0 Hno'), (@replace_CR_withCR s0 Hno').
  rewrite (@replace_CRLF_none s0 Hno'), (@replace_CR_none s0 Hno').
  split; reflexivity.
Qed.

Lemma parseSrt_blocks (srtText : jsstring) :
  parseSrt (Some srtText) =
    JsArray.mapi with_index
      (JsArray.sort byStart (collectCues (blocksOf srtText))).
Proof.
  destruct srtText; reflexivity.
Qed.

(** X8: a document parses the same with CR LF line ends, with CR line
    ends and with LF line ends. *)
Theorem parseSrt_line_ends :
  forall s : jsstring,
    ~ In 13 s ->
    parseSrt (Some (withLineEnds [13; 10] s)) = parseSrt (Some s)
    /\ parseSrt (Some (withLineEnds [13] s)) = parseSrt (Some s).
Proof.
  intros s Hno. rewrite !parseSrt_blocks.
  destruct (@blocksOf_line_ends s Hno) as [-> ->]. now split.
Qed.

(** X9: a byte order mark in front of a document changes nothing. *)
Theorem parseSrt_ignores_leading_BOM :
  forall s : jsstring,
    hd_error s <> Some 65279 ->
    parseSrt (Some (65279 :: s)) = parseSrt (Some s).
Proof.
  intros s Hs. rewrite !parseSrt_blocks. unfold blocksOf.
  rewrite !replace_at_start_BOM. rewrite Z.eqb_refl.
  destruct s as [|c s]; [reflexivity|].
  destruct (Z.eqb_spec c 65279) as [->|_]; [now destruct Hs | reflexivity].
Qed.

(** ** The units of the blocks and of the texts *)

Section Units.

Variable P : Z -> Prop.

Lemma replace_from_units (r : Regex.t) (f : jsstring -> jsstring) :
  (forall m, Forall P (f m)) ->
  forall (s : jsstring) (skip : nat),
    Forall P s -> Forall P (Regex.replace_from r f skip s).
Proof.
  intros Hf. induction s as [|c s IH]; intros skip Hs.
  - cbn [Regex.replace_from].
    destruct skip; [|constructor].
    destruct (Regex.match_at r []); [apply Hf | constructor].
  - inversion Hs as [|? ? Hc Hs']; subst.
    cbn [Regex.replace_from]. destruct skip as [|n]; [|now apply IH].
    destruct (Regex.match_at r (c :: s)) as [m|].
    + destruct (length (Regex.whole m)).
      * apply Forall_app. split; [apply Hf|]. constructor; auto.
      * apply Forall_app. split; [apply Hf | auto].
    + constructor; auto.
Qed.

Lemma regex_split_from_units (r : Regex.t) :
  forall (s : jsstring) (skip : nat) (cur : jsstring),
    Forall P s -> Forall P cur ->
    Forall (Forall P) (Regex.split_from r skip cur s).
Proof.
  induction s as [|c s IH]; intros skip cur Hs Hcur.
  - cbn [Regex.split_from]. constructor; [|constructor].
    now apply Forall_rev.
  - inversion Hs as [|? ? Hc Hs']; subst.
    cbn [Regex.split_from]. destruct skip as [|n]; [|now apply IH].
    destruct (Regex.match_at r (c :: s)) as [m|].
    + destruct (length (Regex.whole m)) as [|k]; [destruct cur as [|u cur]|].
      * apply IH; auto.
      * constructor; [now apply Forall_rev | apply IH; auto].
      * constructor; [now apply Forall_rev | apply IH; auto].
    + apply IH; auto.
Qed.

Lemma string_split_from_units (sep : jsstring) :
  forall (s : jsstring) (skip : nat) (cur : jsstring),
    Forall P s -> Forall P cur ->
    Forall (Forall P) (JsString.split_from sep skip cur s).
Proof.
  induction s as [|c s IH]; intros skip cur Hs Hcur.
  - cbn [JsString.split_from]. constructor; [|constructor].
    now apply Forall_rev.
  - inversion Hs as [|? ? Hc Hs']; subst.
    cbn [JsString.split_from]. destruct skip as [|n]; [|now apply IH].
    destruct (startsWith sep (c :: s)).
    + constructor; [now apply Forall_rev | apply IH; auto].
    + apply IH; auto.
Qed.

Lemma trimStart_units (s : jsstring) : Forall P s -> Forall P (trimStart s).
Proof.
  induction 1 as [|c s Hc Hs IH]; simpl; [constructor|].
  destruct (isWhiteSpace c); [exact IH | now constructor].
Qed.

Lemma trimEnd_units (s : jsstring) : Forall P s -> Forall P (trimEnd s).
Proof.
  intros H. unfold trimEnd. apply Forall_rev, trimStart_units.
  now apply Forall_rev.
Qed.

Lemma trim_units (s : jsstring) : Forall P s -> Forall P (trim s).
Proof.
  intros H. unfold trim. now apply trimEnd_units, trimStart_units.
Qed.

Lemma join_units (sep : jsstring) (pieces : list jsstring) :
  Forall P sep -> Forall (Forall P) pieces -> Forall P (join sep pieces).
Proof.
  intros Hsep. induction 1 as [|p rest Hp Hrest IH]; [constructor|].
  cbn [join]. destruct rest as [|q rest]; [assumption|].
  apply Forall_app. split; [assumption|].
  apply Forall_app. split; assumption.
Qed.

End Units.

Lemma blocksOf_normalized_units (P : Z -> Prop) (s : jsstring) :
  Forall P s -> P 10 ->
  Forall P (replace_with (Regex.chr 13) LF
              (replace_with (Regex.str 13 [10]) LF
                 (Regex.replace_at_start (Regex.chr 65279) [] s))).
Proof.
  intros Hs H10.
  assert (HLF : forall m : jsstring, Forall P ((fun _ => LF) m))
    by (intros _; repeat constructor; exact H10).
  unfold replace_with, Regex.replace_all.
  apply replace_from_units; [exact HLF|].
  apply replace_from_units; [exact HLF|].
  rewrite replace_at_start_BOM. destruct s as [|c rest]; [constructor|].
  destruct (c =? 65279); [now inversion Hs | exact Hs].
Qed.

Lemma blocksOf_units (P : Z -> Prop) (s : jsstring) :
  Forall P s -> P 10 -> Forall (Forall P) (blocksOf s).
Proof.
  intros Hs H10. unfold blocksOf.
  apply Forall_forall. intros b Hb.
  apply filter_In in Hb. destruct Hb as [Hb _].
  apply in_map_iff in Hb. destruct Hb as [piece [<- Hpiece]].
  apply trim_units.
  pose proof (@regex_split_from_units P BLANK_LINES_RE _ O []
                (blocksOf_normalized_units Hs H10) (Forall_nil _)) as H.
  rewrite Forall_forall in H. now apply H.
Qed.

Lemma blocksOf_no_CR (s : jsstring) :
  Forall (Forall (fun c => c <> 13)) (blocksOf s).
Proof.
  unfold blocksOf.
  apply Forall_forall. intros b Hb.
  apply filter_In in Hb. destruct Hb as [Hb _].
  apply in_map_iff in Hb. destruct Hb as [piece [<- Hpiece]].
  apply trim_units.
  assert (Hno : Forall (fun c => c <> 13)
                  (replace_with (Regex.chr 13) LF
                     (replace_with (Regex.str 13 [10]) LF
                        (Regex.replace_at_start (Regex.chr 65279) [] s)))).
  { unfold replace_with at 1. unfold Regex.chr at 1.
    rewrite replace_all_Class.
    apply subst_units_Forall with (P := fun _ => True).
    - apply Forall_forall. intros; exact I.
    - intros c _ _. repeat constructor. discriminate.
    - intros c _ Hc. apply Z.eqb_neq in Hc. congruence. }
  pose proof (@regex_split_from_units _ BLANK_LINES_RE _ O [] Hno (Forall_nil _))
    as H.
  rewrite Forall_forall in H. now apply H.
Qed.

Lemma captionText_units (P : Z -> Prop) (block : jsstring) :
  Forall P block -> P 10 ->
  Forall P (trim (join LF (captionLinesOf block))).
Proof.
  intros Hb H10. apply trim_units, join_units.
  - repeat constructor. exact H10.
  - apply Forall_forall. intros l Hl. unfold captionLinesOf in Hl.
    apply filter_In in Hl. destruct Hl as [Hin _].
    assert (Hline : In l (linesOf block)).
    { unfold JsArray.slice in Hin.
      destruct (_ <? 0) in Hin; eapply skipn_In; eassumption. }
    unfold linesOf in Hline. apply in_map_iff in Hline.
    destruct Hline as [l0 [<- Hl0]]. apply trimEnd_units.
    pose proof (@string_split_from_units P LF block O [] Hb (Forall_nil _)) as H.
    rewrite Forall_forall in H. now apply H.
Qed.

(** X10: the text of a cue is made of units of the document and of line
    feeds, and it holds no carriage return. *)
Theorem parseSrt_text_units :
  forall (srtText : jsstring) (c : Cue),
    In c (parseSrt (Some srtText)) ->
    Forall (fun u => u = 10 \/ In u srtText) (text c)
    /\ ~ In 13 (text c).
Proof.
  intros srtText c Hc.
  destruct (parseSrt_In_block _ _ Hc)
    as (t & block & timing & Et & Hblock & _ & Hb).
  injection Et as <-.
  unfold cue_body in Hb. injection Hb as _ _ ->.
  split.
  - apply captionText_units; [|now left].
    assert (H : Forall (Forall (fun u => u = 10 \/ In u srtText))
                       (blocksOf srtText)).
    { apply blocksOf_units; [|now left].
      apply Forall_forall. intros u Hu. now right. }
    rewrite Forall_forall in H. now apply H.
  - pose proof (blocksOf_no_CR srtText) as H.
    rewrite Forall_forall in H. specialize (H block Hblock).
    assert (H' : Forall (fun u => u <> 13)
                        (trim (join LF (captionLinesOf block))))
      by (apply captionText_units; [exact H | discriminate]).
    rewrite Forall_forall in H'. intros Hin. now apply (H' 13 Hin).
Qed.

Lemma trimStart_blank (s : jsstring) :
  Forall (fun c => isWhiteSpace c = true) s -> trimStart s = [].
Proof.
  induction 1 as [|c s Hc _ IH]; simpl; [reflexivity|]. now rewrite Hc.
Qed.

(** X11: a document of whitespace only (blanks, tabs, line ends, byte
    order marks) has no block and gives no cue. *)
Theorem parseSrt_blank_document :
  forall s : jsstring,
    Forall (fun c => isWhiteSpace c = true) s ->
    blocksOf s = [] /\ parseSrt (Some s) = [].
Proof.
  intros s Hs.
  assert (Hb : blocksOf s = []).
  { pose proof (@blocksOf_units _ s Hs eq_refl) as H.
    destruct (blocksOf s) as [|b bs] eqn:E; [reflexivity|]. exfalso.
    assert (Hin : In b (blocksOf s)) by (rewrite E; now left).
    inversion H as [|? ? Hblank _]; subst.
    unfold blocksOf in Hin. apply filter_In in Hin.
    destruct Hin as [Hin Hlen].
    apply in_map_iff in Hin. destruct Hin as [piece [Hp _]].
    assert (Htrim : trim b = b).
    { rewrite <- Hp. apply trim_ends. }
    unfold trim in Htrim. rewrite (trimStart_blank Hblank) in Htrim.
    rewrite <- Htrim in Hlen. discriminate. }
  split; [exact Hb|]. rewrite parseSrt_blocks, Hb. reflexivity.
Qed.

(** ** More on the text normalizer *)

(** X12: for every input, [null] included, the normalized text holds no
    bidirectional mark, no zero-width unit, no space variant, no Arabic
    comma, separator or colon variant, no Arabic-Indic digit and no
    whitespace; normalizing it again changes nothing, and the texts that
    the normalizer leaves as they are are those without such units. *)
Theorem normalizeTimeString_normal_form :
  forall raw : option jsstring,
    Forall (fun c => is_rewritten c = false) (normalizeTimeString raw)
    /\ normalizeTimeString (Some (normalizeTimeString raw))
       = normalizeTimeString raw
    /\ (forall s : jsstring,
           normalizeTimeString (Some s) = s
           <-> Forall (fun c => is_rewritten c = false) s).
Proof.
  intros raw. split; [apply normalizeTimeString_output|].
  split; [apply normalizeTimeString_idempotent|].
  intros s. split.
  - intros <-. apply normalizeTimeString_output.
  - apply normalizeTimeString_fixed.
Qed.

Lemma subst_units_app (p : Z -> bool) (r : Z -> jsstring) (a b : jsstring) :
  subst_units p r (a ++ b) = subst_units p r a ++ subst_units p r b.
Proof. unfold subst_units. apply flat_map_app. Qed.

Lemma subst_units_length (p : Z -> bool) (r : Z -> jsstring) (s : jsstring) :
  (forall c, p c = true -> (length (r c) <= 1)%nat) ->
  (length (subst_units p r s) <= length s)%nat.
Proof.
  intros Hr. unfold subst_units.
  induction s as [|c s IH]; simpl; [lia|].
  rewrite length_app. destruct (p c) eqn:E; [specialize (Hr c E)|]; simpl; lia.
Qed.

Lemma normalizeTimeString_untrimmed (raw : jsstring) :
  normalizeTimeString (Some raw) =
    filter (fun c => negb (isWhiteSpace c))
      (subst_units (in_range 0x06F0 0x06F9) (fun c => StringOfInteger (c - 0x06F0))
      (subst_units (in_range 0x0660 0x0669) (fun c => StringOfInteger (c - 0x0660))
      (subst_units (Z.eqb 0x2236) (fun _ => [58])
      (subst_units (Z.eqb 0xFE55) (fun _ => [58])
      (subst_units (Z.eqb 0xFE13) (fun _ => [58])
      (subst_units (Z.eqb 0xFF1A) (fun _ => [58])
      (subst_units (Z.eqb 0xFE11) (fun _ => [44])
      (subst_units (Z.eqb 0xFE10) (fun _ => [44])
      (subst_units (Z.eqb 0xFF0C) (fun _ => [44])
      (subst_units (Z.eqb 0x066C) (fun _ => [])
      (subst_units (Z.eqb 0x066B) (fun _ => [44])
      (subst_units (Z.eqb 0x060C) (fun _ => [44])
      (subst_units isWeirdSpace (fun _ => [32])
      (subst_units isZeroWidth (fun _ => [])
      (subst_units isBidiMark (fun _ => []) raw))))))))))))))).
Proof.
  rewrite normalizeTimeString_units. apply trim_clean.
  match goal with
  | |- Forall _ (filter _ ?s) =>
      generalize (@filter_Forall (fun _ => True) isWhiteSpace s
                    ltac:(apply Forall_forall; intros; exact I))
  end.
  apply Forall_impl. intros c [_ H]. exact H.
Qed.

Lemma arabic_digit_units (base c : Z) :
  (base = 1632 \/ base = 1776) ->
  in_range base (base + 9) c = true ->
  StringOfInteger (c - base) = [48 + (c - base)].
Proof.
  intros Hb Hc.
  assert (Hd : c - base = 0 \/ c - base = 1 \/ c - base = 2 \/ c - base = 3
               \/ c - base = 4 \/ c - base = 5 \/ c - base = 6
               \/ c - base = 7 \/ c - base = 8 \/ c - base = 9)
    by (unfold in_range in Hc; lia).
  clear Hb Hc.
  destruct Hd as [H|[H|[H|[H|[H|[H|[H|[H|[H|H]]]]]]]]];
    rewrite H; reflexivity.
Qed.

Ltac shorter_step :=
  match goal with
  | |- (length (subst_units ?p ?r ?s) <= _)%nat =>
      apply Nat.le_trans with (m := length s);
      [apply subst_units_length; intros c Hc;
       first [ simpl; lia
             | rewrite (@arabic_digit_units 1632 c) by (auto; exact Hc);
               simpl; lia
             | rewrite (@arabic_digit_units 1776 c) by (auto; exact Hc);
               simpl; lia ]
      |]
  end.

Lemma normalizeTimeString_app (a b : jsstring) :
  normalizeTimeString (Some (a ++ b))
    = normalizeTimeString (Some a) ++ normalizeTimeString (Some b).
Proof.
  rewrite !normalizeTimeString_untrimmed.
  rewrite !subst_units_app. apply filter_app.
Qed.

(** X13: the normalizer works unit by unit: the normalized text of a
    concatenation is the concatenation of the normalized texts, and a
    normalized text is never longer than the text. *)
Theorem normalizeTimeString_unit_by_unit :
  forall a b : jsstring,
    normalizeTimeString (Some (a ++ b))
      = normalizeTimeString (Some a) ++ normalizeTimeString (Some b)
    /\ (length (normalizeTimeString (Some a)) <= length a)%nat.
Proof.
  intros a b. split; [apply normalizeTimeString_app|].
  rewrite normalizeTimeString_untrimmed.
  eapply Nat.le_trans; [apply filter_length_le|].
  do 15 shorter_step. lia.
Qed.

Lemma normalizeTimeString_cons (c : Z) (s : jsstring) :
  normalizeTimeString (Some (c :: s))
    = normalizeTimeString (Some [c]) ++ normalizeTimeString (Some s).
Proof.
  apply (normalizeTimeString_app [c] s).
Qed.

(** X14: a text of Arabic-Indic digits, or of Extended Arabic-Indic
    digits, is normalized to the ASCII digits of the same values. *)
Theorem normalizeTimeString_arabic_digits :
  forall ds : list Z,
    Forall (fun d => 0 <= d <= 9) ds ->
    normalizeTimeString (Some (map (Z.add 0x0660) ds)) = map (Z.add 48) ds
    /\ normalizeTimeString (Some (map (Z.add 0x06F0) ds)) = map (Z.add 48) ds.
Proof.
  induction 1 as [|d ds Hd _ [IH1 IH2]]; [split; reflexivity|].
  cbn [map].
  rewrite (normalizeTimeString_cons (0x0660 + d)).
  rewrite (normalizeTimeString_cons (0x06F0 + d)).
  assert (Hcases : d = 0 \/ d = 1 \/ d = 2 \/ d = 3 \/ d = 4
                   \/ d = 5 \/ d = 6 \/ d = 7 \/ d = 8 \/ d = 9) by lia.
  split.
  - apply (f_equal2 (@app Z) (y1 := [48 + d])); [|exact IH1].
    destruct Hcases as [E|[E|[E|[E|[E|[E|[E|[E|[E|E]]]]]]]]];
      subst d; reflexivity.
  - apply (f_equal2 (@app Z) (y1 := [48 + d])); [|exact IH2].
    destruct Hcases as [E|[E|[E|[E|[E|[E|[E|[E|[E|E]]]]]]]]];
      subst d; reflexivity.
Qed.

(** X15: a text of visible ASCII units (from ['!'] to ['~']), such as a
    timing line without blanks, is left as it is. *)
Theorem normalizeTimeString_keeps_visible_ascii :
  forall s : jsstring,
    Forall (fun c => 33 <= c <= 126) s ->
    normalizeTimeString (Some s) = s.
Proof.
  intros s H. apply normalizeTimeString_fixed.
  revert H. apply Forall_impl. intros c Hc. unclass. lia.
Qed.

Lemma subst_units_single (p : Z -> bool) (r : Z -> jsstring) (c : Z) :
  subst_units p r [c] = if p c then r c else [c].
Proof.
  unfold subst_units. cbn [flat_map]. apply app_nil_r.
Qed.

Lemma normalizeTimeString_removed_unit (c : Z) :
  is_removed c = true -> normalizeTimeString (Some [c]) = [].
Proof.
  intros Hc. rewrite normalizeTimeString_untrimmed.
  repeat (rewrite subst_units_single;
          match goal with
          | |- context [if ?b then _ else _] =>
              destruct b eqn:?;
              [first [reflexivity | exfalso; unfold is_removed in Hc; unclass; lia]|]
          end).
  cbn [filter].
  assert (Hw : isWhiteSpace c = true) by (unfold is_removed in Hc; unclass; lia).
  now rewrite Hw.
Qed.

Lemma normalizeTimeString_without_unit (a b : jsstring) (c : Z) :
  is_removed c = true ->
  normalizeTimeString (Some (a ++ c :: b)) = normalizeTimeString (Some (a ++ b)).
Proof.
  intros Hc.
  transitivity (normalizeTimeString (Some a)
                ++ normalizeTimeString (Some (c :: b)));
    [apply normalizeTimeString_app|].
  transitivity (normalizeTimeString (Some a)
                ++ normalizeTimeString (Some [c])
                ++ normalizeTimeString (Some b));
    [f_equal; apply normalizeTimeString_cons|].
  rewrite (normalizeTimeString_removed_unit _ Hc). cbn [app].
  symmetry. apply normalizeTimeString_app.
Qed.

Lemma parseTimingLine_timingOfNormalized (rawLine : jsstring) :
  parseTimingLine (Some rawLine)
    = timingOfNormalized (normalizeTimeString (Some rawLine)).
Proof.
  destruct rawLine; reflexivity.
Qed.

(** X16: a bidirectional mark, a zero-width unit, a space variant or a
    whitespace unit, put anywhere in a text, changes neither its
    normalized text, nor the time that [timeToMs] reads, nor what
    [parseTimingLine] reads. *)
Theorem invisible_units_do_not_matter :
  forall (a b : jsstring) (c : Z),
    is_removed c = true ->
    normalizeTimeString (Some (a ++ c :: b))
      = normalizeTimeString (Some (a ++ b))
    /\ timeToMs (Some (a ++ c :: b)) = timeToMs (Some (a ++ b))
    /\ parseTimingLine (Some (a ++ c :: b)) = parseTimingLine (Some (a ++ b)).
Proof.
  intros a b c Hc.
  pose proof (@normalizeTimeString_without_unit a b c Hc) as Hn.
  split; [exact Hn|]. split.
  - unfold timeToMs. now rewrite Hn.
  - rewrite !parseTimingLine_timingOfNormalized. apply f_equal. exact Hn.
Qed.

(** ** More on the cue locator *)

Lemma contains_somewhere (cues : list Cue) (positionMs : Z) :
  (exists i c, nth_error cues i = Some c /\ contains c positionMs)
  \/ (forall c, In c cues -> ~ contains c positionMs).
Proof.
  induction cues as [|c0 cues IH].
  - right. intros c [].
  - destruct (Z_le_dec (startMs c0) positionMs) as [Hs|Hs];
      [destruct (Z_le_dec positionMs (endMs c0)) as [He|He]|].
    + left. exists O, c0. split; [reflexivity | split; assumption].
    + destruct IH as [[i [c [Hi Hc]]]|IH].
      * left. now exists (S i), c.
      * right. intros c [<-|Hin]; [unfold contains; lia | now apply IH].
    + destruct IH as [[i [c [Hi Hc]]]|IH].
      * left. now exists (S i), c.
      * right. intros c [<-|Hin]; [unfold contains; lia | now apply IH].
Qed.

(** On cues that are intervals, sorted and apart, the locator returns the
    last cue that has started, or 0 when none has. *)
Lemma findCueIndex_last_started_cue
      (fuel : nat) (cues : list Cue) (positionMs : Z) :
  cues <> [] ->
  Forall is_interval cues -> sorted_by_start cues -> non_overlapping cues ->
  Z.of_nat (length cues) <= MAX_CUES -> (length cues < fuel)%nat ->
  exists r : nat,
    findCueIndex fuel (Some cues) positionMs = Returns (Z.of_nat r)
    /\ (r < length cues)%nat
    /\ (forall j c, (r < j)%nat -> nth_error cues j = Some c ->
                    positionMs < startMs c)
    /\ (r = O \/ exists c, nth_error cues r = Some c /\ startMs c <= positionMs).
Proof.
  intros Hne Hwf Hsorted Hapart Hmax Hfuel.
  pose proof (nonempty_length Hne) as Hlen.
  destruct (contains_somewhere cues positionMs) as [[i [c [Hi Hc]]]|Hnone].
  - exists i.
    assert (Hlt : (i < length cues)%nat) by (apply nth_error_Some; congruence).
    split; [|split; [exact Hlt|split]].
    + rewrite findCueIndex_nonempty by assumption.
      apply (@findCueIndex_loop_finds cues positionMs Hmax Hsorted Hapart
               (Z.of_nat i) c); try lia; try assumption.
      now rewrite get_nth_error.
    + intros j c' Hj Hc'.
      pose proof (StronglySorted_nth Hapart Hj Hi Hc') as H. simpl in H.
      unfold contains in Hc. lia.
    + right. exists c. unfold contains in Hc. split; [assumption | lia].
  - destruct (@findCueIndex_gap_split fuel cues positionMs
                Hne Hsorted Hapart Hmax Hfuel Hnone)
      as [k [Hres [Hk [Hbelow Habove]]]].
    exists (Z.to_nat (Z.max 0 (k - 1))).
    split; [|split; [lia|split]].
    + rewrite Hres. f_equal. lia.
    + intros j c' Hj Hc'. apply (Habove j c'); [lia | assumption].
    + destruct (Z_le_gt_dec k 1) as [Hk1|Hk1]; [left; lia|].
      right.
      destruct (nth_error cues (Z.to_nat (Z.max 0 (k - 1)))) as [c|] eqn:E.
      * exists c. split; [reflexivity|].
        pose proof (Hbelow (Z.to_nat (Z.max 0 (k - 1))) c ltac:(lia) E) as Hended.
        rewrite Forall_forall in Hwf.
        pose proof (Hwf c (nth_error_In _ _ E)) as Hint.
        unfold is_interval in Hint. lia.
      * apply nth_error_None in E. lia.
Qed.

(** X17: on cues that are intervals, sorted by start and not overlapping,
    the locator returns the last cue that has started at the position
    (every later cue starts after the position), and index 0 when no cue
    has started yet. *)
Theorem findCueIndex_returns_last_started :
  forall (fuel : nat) (cues : list Cue) (positionMs : Z),
    cues <> [] ->
    Forall is_interval cues -> sorted_by_start cues -> non_overlapping cues ->
    Z.of_nat (length cues) <= MAX_CUES -> (length cues < fuel)%nat ->
    exists r : nat,
      findCueIndex fuel (Some cues) positionMs = Returns (Z.of_nat r)
      /\ (r < length cues)%nat
      /\ (forall j c, (r < j)%nat -> nth_error cues j = Some c ->
                      positionMs < startMs c)
      /\ (r = O
          \/ exists c, nth_error cues r = Some c /\ startMs c <= positionMs).
Proof.
  exact findCueIndex_last_started_cue.
Qed.

(** X18: on such cues the located index never goes back when the position
    goes forward. *)
Theorem findCueIndex_monotone :
  forall (fuel : nat) (cues : list Cue) (p1 p2 : Z),
    cues <> [] ->
    Forall is_interval cues -> sorted_by_start cues -> non_overlapping cues ->
    Z.of_nat (length cues) <= MAX_CUES -> (length cues < fuel)%nat ->
    p1 <= p2 ->
    exists i1 i2 : Z,
      findCueIndex fuel (Some cues) p1 = Returns i1
      /\ findCueIndex fuel (Some cues) p2 = Returns i2
      /\ i1 <= i2.
Proof.
  intros fuel cues p1 p2 Hne Hwf Hsorted Hapart Hmax Hfuel Hle.
  destruct (@findCueIndex_last_started_cue fuel cues p1
              Hne Hwf Hsorted Hapart Hmax Hfuel)
    as [r1 [H1 [Hr1 [_ Hstarted]]]].
  destruct (@findCueIndex_last_started_cue fuel cues p2
              Hne Hwf Hsorted Hapart Hmax Hfuel)
    as [r2 [H2 [Hr2 [Hlater _]]]].
  exists (Z.of_nat r1), (Z.of_nat r2).
  split; [exact H1|]. split; [exact H2|].
  destruct (Nat.le_gt_cases r1 r2) as [?|Hgt]; [lia|]. exfalso.
  destruct Hstarted as [->|[c [Hc Hs]]]; [lia|].
  pose proof (Hlater r1 c Hgt Hc). lia.
Qed.

(** X19: the cue that the locator finds in the result of [parseSrt]
    carries the located index in its [index] field, whatever the document
    and the position. *)
Theorem findCueIndex_on_parsed_cues :
  forall (fuel : nat) (srtText : option jsstring) (positionMs : Z),
    parseSrt srtText <> [] ->
    Z.of_nat (length (parseSrt srtText)) <= MAX_CUES ->
    (length (parseSrt srtText) < fuel)%nat ->
    exists (i : Z) (c : Cue),
      findCueIndex fuel (Some (parseSrt srtText)) positionMs = Returns i
      /\ JsArray.get (parseSrt srtText) i = Some c
      /\ index c = i.
Proof.
  intros fuel srtText positionMs Hne Hmax Hfuel.
  rewrite findCueIndex_nonempty by assumption.
  pose proof (nonempty_length Hne) as Hpos.
  destruct (@findCueIndex_loop_in_bounds (parseSrt srtText) positionMs Hmax fuel
              0 (Z.of_nat (length (parseSrt srtText)) - 1) 0)
    as [i [Hi Hrange]]; try lia.
  destruct (@get_in_range _ (parseSrt srtText) i) as [c Hc]; [lia|].
  exists i, c. split; [exact Hi|]. split; [exact Hc|].
  apply get_Some_range in Hc. destruct Hc as [_ Hc].
  rewrite parseSrt_cuesInBlockOrder in Hc.
  apply mapi_from_nth in Hc. destruct Hc as [Hidx _]. lia.
Qed.

(** ** The player screen *)

Lemma syncPosition_located (fuel : nat) (mounted : bool) (cues : list Cue)
      (positionMs : Z) (repeatLine : bool) (activeIndex lastRepeat idx : Z) :
  cues <> [] ->
  findCueIndex fuel (Some cues) positionMs = Returns idx ->
  syncPosition fuel mounted cues positionMs repeatLine activeIndex lastRepeat
  = let moved :=
        if idx =? activeIndex then []
        else SetActiveIndex idx
             :: (if mounted then [ScrollTo (Z.max 0 (idx * 72 - 120))]
                 else []) in
    if repeatLine then
      match JsArray.get cues idx with
      | None => Ran moved lastRepeat
      | Some c =>
          if (positionMs >=? endMs c - 40) && negb (lastRepeat =? index c)
          then Ran (moved ++ [SeekTo (startMs c); Play]) (index c)
          else Ran moved lastRepeat
      end
    else Ran moved (-1).
Proof.
  intros Hne Hidx. unfold syncPosition.
  destruct cues as [|c0 cues]; [congruence|]. now rewrite Hidx.
Qed.


Lemma activeAfter_moved (mounted : bool) (idx activeIndex : Z) (tail : list command) :
  (forall i, ~ In (SetActiveIndex i) tail) ->
  activeAfter
    ((if idx =? activeIndex then []
      else SetActiveIndex idx
           :: (if mounted then [ScrollTo (Z.max 0 (idx * 72 - 120))] else []))
     ++ tail) activeIndex = idx.
Proof.
  intros Htail.
  assert (Hkeep : forall a, activeAfter tail a = a).
  { induction tail as [|cmd tail IH]; intros a; [reflexivity|].
    destruct cmd; cbn [activeAfter];
      try (apply IH; intros i Hi; apply (Htail i); now right).
    exfalso. apply (Htail idx0). now left. }
  destruct (Z.eqb_spec idx activeIndex) as [->|Hne]; cbn [app activeAfter].
  - apply Hkeep.
  - destruct mounted; cbn [app activeAfter]; apply Hkeep.
Qed.

(** X21: the effect comes to rest: run again at the same position, with
    the active index that the first run set and the reference that it
    left, it makes no call and leaves the reference as it is.  So a seek
    for a repeated line is made once, not at every run. *)
Theorem syncPosition_comes_to_rest :
  forall (fuel : nat) (mounted : bool) (cues : list Cue) (positionMs : Z)
         (repeatLine : bool) (activeIndex lastRepeat : Z)
         (commands : list command) (lastRepeat' : Z),
    syncPosition fuel mounted cues positionMs repeatLine
                 activeIndex lastRepeat
      = Ran commands lastRepeat' ->
    syncPosition fuel mounted cues positionMs repeatLine
                 (activeAfter commands activeIndex) lastRepeat'
      = Ran [] lastRepeat'.
Proof.
  intros fuel mounted cues positionMs repeatLine activeIndex lastRepeat
         commands lastRepeat' H.
  destruct cues as [|c0 cues'] eqn:Ecues.
  - cbn [syncPosition] in H. injection H as <- <-. reflexivity.
  - rewrite <- Ecues in *.
    assert (Hne : cues <> []) by (rewrite Ecues; discriminate).
    destruct (findCueIndex fuel (Some cues) positionMs) as [idx| |] eqn:Hidx;
      try (unfold syncPosition in H; rewrite Ecues in H;
           rewrite <- Ecues in H; rewrite Hidx in H; discriminate).
    rewrite (@syncPosition_located fuel mounted cues positionMs repeatLine
               activeIndex lastRepeat idx Hne Hidx) in H.
    rewrite (@syncPosition_located fuel mounted cues positionMs repeatLine
               (activeAfter commands activeIndex) lastRepeat' idx Hne Hidx).
    cbv zeta in *.
    assert (Hnil : forall i, ~ In (SetActiveIndex i) (@nil command))
      by (intros i []).
    assert (Hseek : forall c i,
               ~ In (SetActiveIndex i) [SeekTo (startMs c); Play])
      by (intros c i [Hi|[Hi|[]]]; discriminate).
    destruct repeatLine.
    + destruct (JsArray.get cues idx) as [c|] eqn:Hc.
      * destruct ((positionMs >=? endMs c - 40)
                  && negb (lastRepeat =? index c)) eqn:Hcond;
          injection H as <- <-.
        -- rewrite (@activeAfter_moved mounted idx activeIndex _ (Hseek c)).
           rewrite !Z.eqb_refl. cbn [negb]. rewrite andb_false_r.
           reflexivity.
        -- pose proof (@activeAfter_moved mounted idx activeIndex [] Hnil) as Ha.
           rewrite app_nil_r in Ha. rewrite Ha, Z.eqb_refl, Hcond.
           reflexivity.
      * injection H as <- <-.
        pose proof (@activeAfter_moved mounted idx activeIndex [] Hnil) as Ha.
        rewrite app_nil_r in Ha. rewrite Ha, Z.eqb_refl. reflexivity.
    + injection H as <- <-.
      pose proof (@activeAfter_moved mounted idx activeIndex [] Hnil) as Ha.
      rewrite app_nil_r in Ha. rewrite Ha, Z.eqb_refl. reflexivity.
Qed.

(** X22: a press on a cue of the list that [parseSrt] made seeks the
    player to the start of that very cue and plays; an index outside the
    list makes no call. *)
Theorem seekToCue_on_parsed_cues :
  (forall (srtText : option jsstring) (c : Cue),
      In c (parseSrt srtText) ->
      seekToCue (parseSrt srtText) (index c) = [SeekTo (startMs c); Play])
  /\ (forall (cues : list Cue) (i : Z),
         i < 0 \/ Z.of_nat (length cues) <= i -> seekToCue cues i = []).
Proof.
  split.
  - intros srtText c Hc. unfold seekToCue.
    destruct (In_nth_error _ _ Hc) as [n Hn].
    assert (Hidx : index c = Z.of_nat n).
    { pose proof Hn as Hn'. rewrite parseSrt_cuesInBlockOrder in Hn'.
      apply mapi_from_nth in Hn'. destruct Hn' as [Hi _]. lia. }
    now rewrite Hidx, get_nth_error, Hn.
  - intros cues i Hi. unfold seekToCue.
    destruct (JsArray.get cues i) as [c|] eqn:E; [|reflexivity].
    apply get_Some_range in E. lia.
Qed.

(** ** The further properties on examples *)

Ltac no_such_unit :=
  let H := fresh "H" in
  intros H; vm_compute in H;
  repeat (destruct H as [H|H]; [discriminate H|]); exact H.

Lemma three_cues_intervals : Forall is_interval three_cues.
Proof. repeat constructor; unfold is_interval; simpl; lia. Defined.

Lemma three_cues_nonempty : three_cues <> [].
Proof. discriminate. Defined.

Lemma three_cues_fuel : (length three_cues < 4)%nat.
Proof. simpl. lia. Defined.

(** A text that begins with a letter, and a timestamp with blanks before
    it. *)
Lemma timeToMs_zero_unless_timestamp_witness :
  timeToMs (Some (lit "abc")) = 0
  /\ exists hh mm ss sep frac tail,
       normalizeTimeString (Some (lit "  00:00:01,500"))
         = stamp hh mm ss sep frac ++ tail
       /\ stamp_fields hh mm ss sep frac
       /\ (stamp_ms hh mm ss frac <= MAX_SAFE_INTEGER ->
           timeToMs (Some (lit "  00:00:01,500")) = stamp_ms hh mm ss frac).
Proof.
  split.
  - apply (proj2 (proj2 timeToMs_zero_unless_timestamp)
                 (Some (lit "abc")) 97 (lit "bc")); reflexivity.
  - apply (proj1 timeToMs_zero_unless_timestamp
                 (Some (lit "  00:00:01,500"))).
    vm_compute. discriminate.
Defined.

(** The Arabic timing line. *)
Lemma parseTimingLine_reads_timestamps_witness :
  parseTimingLine (Some arabic_timing_line) =
    Some {| Timing.startMs := stamp_ms (lit "00") (lit "01") (lit "02") (lit "5");
            Timing.endMs := stamp_ms (lit "00") (lit "01") (lit "04") (lit "250");
            Timing.startRaw := stamp (lit "00") (lit "01") (lit "02") 44 (lit "5");
            Timing.endRaw := stamp (lit "00") (lit "01") (lit "04") 46 (lit "250");
            Timing.normalizedLine :=
              normalizeTimeString (Some arabic_timing_line) |}.
Proof.
  apply (@parseTimingLine_reads_timestamps arabic_timing_line
           (lit "00") (lit "01") (lit "02") 44 (lit "5") [0x2014; 62]
           (lit "00") (lit "01") (lit "04") 46 (lit "250") []).
  - reflexivity.
  - unfold stamp_fields, all_digits.
    repeat split; try reflexivity; try (simpl; lia); repeat constructor.
  - right. left. reflexivity.
  - unfold stamp_fields, all_digits.
    repeat split; try reflexivity; try (simpl; lia); repeat constructor.
  - left. reflexivity.
  - vm_compute. discriminate.
  - vm_compute. discriminate.
Defined.

(** The timing line of [block_without_text]. *)
Lemma parseTimingLine_result_is_of_line_witness :
  0 <= Timing.startMs timing_without_text
  /\ 0 <= Timing.endMs timing_without_text.
Proof.
  apply (@parseTimingLine_result_is_of_line
           (Some (lit "00:00:01,000 --> 00:00:02,000")) timing_without_text).
  reflexivity.
Defined.

Lemma parseSrt_times_nonneg_witness :
  0 <= startMs cue_without_text /\ 0 <= endMs cue_without_text.
Proof.
  apply (@parseSrt_times_nonneg (Some block_without_text) cue_without_text).
  vm_compute. left. reflexivity.
Defined.

Lemma parseSrt_text_is_trimmed_witness :
  trim (text indented_cue) = text indented_cue
  /\ (forall u rest, text indented_cue = u :: rest -> isWhiteSpace u = false)
  /\ (forall init u, text indented_cue = init ++ [u] ->
                     isWhiteSpace u = false).
Proof.
  apply (@parseSrt_text_is_trimmed (Some indented_block) indented_cue).
  vm_compute. left. reflexivity.
Defined.

Lemma parseSrt_line_ends_witness :
  parseSrt (Some (withLineEnds [13; 10] block_without_text))
    = parseSrt (Some block_without_text)
  /\ parseSrt (Some (withLineEnds [13] block_without_text))
     = parseSrt (Some block_without_text).
Proof.
  apply parseSrt_line_ends. no_such_unit.
Defined.

Lemma parseSrt_ignores_leading_BOM_witness :
  parseSrt (Some (65279 :: block_hello)) = parseSrt (Some block_hello).
Proof.
  apply parseSrt_ignores_leading_BOM. discriminate.
Defined.

Lemma parseSrt_text_units_witness :
  Forall (fun u => u = 10 \/ In u indented_block) (text indented_cue)
  /\ ~ In 13 (text indented_cue).
Proof.
  apply (@parseSrt_text_units indented_block indented_cue).
  vm_compute. left. reflexivity.
Defined.

(** Blanks, a line feed, a tab and a byte order mark. *)
Lemma parseSrt_blank_document_witness :
  blocksOf [32; 32; 10; 9; 65279] = []
  /\ parseSrt (Some [32; 32; 10; 9; 65279]) = [].
Proof.
  apply parseSrt_blank_document. repeat constructor.
Defined.

Lemma normalizeTimeString_arabic_digits_witness :
  normalizeTimeString (Some (map (Z.add 0x0660) [0; 1; 2; 3; 4; 5; 6; 7; 8; 9]))
    = map (Z.add 48) [0; 1; 2; 3; 4; 5; 6; 7; 8; 9]
  /\ normalizeTimeString
       (Some (map (Z.add 0x06F0) [0; 1; 2; 3; 4; 5; 6; 7; 8; 9]))
     = map (Z.add 48) [0; 1; 2; 3; 4; 5; 6; 7; 8; 9].
Proof.
  apply normalizeTimeString_arabic_digits.
  repeat constructor; lia.
Defined.

Lemma normalizeTimeString_keeps_visible_ascii_witness :
  normalizeTimeString (Some (lit "00:00:01,500-->00:00:02,000"))
    = lit "00:00:01,500-->00:00:02,000".
Proof.
  apply normalizeTimeString_keeps_visible_ascii.
  repeat constructor; simpl; lia.
Defined.

(** A right-to-left mark inside a timestamp. *)
Lemma invisible_units_do_not_matter_witness :
  normalizeTimeString (Some (lit "00:00" ++ 0x200F :: lit ":01,5"))
    = normalizeTimeString (Some (lit "00:00" ++ lit ":01,5"))
  /\ timeToMs (Some (lit "00:00" ++ 0x200F :: lit ":01,5"))
     = timeToMs (Some (lit "00:00" ++ lit ":01,5"))
  /\ parseTimingLine (Some (lit "00:00" ++ 0x200F :: lit ":01,5"))
     = parseTimingLine (Some (lit "00:00" ++ lit ":01,5")).
Proof.
  apply invisible_units_do_not_matter. reflexivity.
Defined.

Lemma findCueIndex_returns_last_started_witness :
  exists r : nat,
    findCueIndex 4 (Some three_cues) 1500 = Returns (Z.of_nat r)
    /\ (r < length three_cues)%nat
    /\ (forall j c, (r < j)%nat -> nth_error three_cues j = Some c ->
                    1500 < startMs c)
    /\ (r = O
        \/ exists c, nth_error three_cues r = Some c /\ startMs c <= 1500).
Proof.
  apply (@findCueIndex_returns_last_started 4 three_cues 1500
           three_cues_nonempty three_cues_intervals three_cues_sorted
           three_cues_apart three_cues_bounded three_cues_fuel).
Defined.

Lemma findCueIndex_monotone_witness :
  exists i1 i2 : Z,
    findCueIndex 4 (Some three_cues) 500 = Returns i1
    /\ findCueIndex 4 (Some three_cues) 1500 = Returns i2
    /\ i1 <= i2.
Proof.
  apply (@findCueIndex_monotone 4 three_cues 500 1500
           three_cues_nonempty three_cues_intervals three_cues_sorted
           three_cues_apart three_cues_bounded three_cues_fuel).
  lia.
Defined.

Lemma findCueIndex_on_parsed_cues_witness :
  exists (i : Z) (c : Cue),
    findCueIndex 3 (Some (parseSrt (Some document_with_untimed_block))) 2500
      = Returns i
    /\ JsArray.get (parseSrt (Some document_with_untimed_block)) i = Some c
    /\ index c = i.
Proof.
  apply findCueIndex_on_parsed_cues.
  - vm_compute. discriminate.
  - vm_compute. discriminate.
  - vm_compute. lia.
Defined.


Lemma syncPosition_comes_to_rest_witness :
  syncPosition 4 true three_cues 1980 true
               (activeAfter [SetActiveIndex 1; ScrollTo 0; SeekTo 1000; Play] 0)
               1
    = Ran [] 1.
Proof.
  apply (@syncPosition_comes_to_rest 4 true three_cues 1980 true 0 (-1)).
  reflexivity.
Defined.

Lemma seekToCue_on_parsed_cues_witness :
  seekToCue (parseSrt (Some block_without_text)) (index cue_without_text)
    = [SeekTo (startMs cue_without_text); Play]
  /\ seekToCue three_cues 3 = [].
Proof.
  destruct seekToCue_on_parsed_cues as [Hin Hout]. split.
  - apply Hin. vm_compute. left. reflexivity.
  - apply Hout. right. simpl. lia.
Defined.
